(** * Podscriber: a shallow embedding of the episode pipeline

    The development follows the source files, one module each: [Py] (the
    fragments of Python the code relies on), [Audio] (audio.py), [Models]
    (models.py), [State] (state.py), [Feed] (feed.py), [Transcriber]
    (transcriber.py), [Extractor] (extractor.py), [NotionWriter]
    (notion_writer.py), [Config] (config.py) and [Main] (main.py); [Demo]
    holds concrete inputs.  The external collaborators (HTTP, the audio
    codec, the transcription, extraction and publication services, the
    feed parser, the clock) are oracles: records of functions that the
    theorems quantify over.  The modules of facts come after the
    definitions, in the same order. *)

From Stdlib Require Import ZArith List Bool Ascii String Lia.
From Stdlib Require Import DecimalString DecimalPos DecimalZ.
From stdpp Require Import base gmap strings list fin_maps sorting.

Open Scope Z_scope.

(* ===================================================================== *)
(** * Python fragments                                                     *)
(* ===================================================================== *)

Module Py.

(** A Python [str] is a sequence of code points. *)
Abbreviation str := (list N).

(** An ASCII literal of the source. *)
Definition lit (s : string) : str := N_of_ascii <$> list_ascii_of_string s.
Arguments lit : simpl never.

(** [str(z)] for an [int]. *)
Definition str_of_int (z : Z) : str := lit (NilZero.string_of_int (Z.to_int z)).

(** [s.rjust(w, "0")]; on a non-negative [int] this is the format [0wd]. *)
Definition rjust0 (w : nat) (s : str) : str :=
  replicate (w - length s)%nat 48%N ++ s.

(** [f"{i:03d}"] for [i >= 0] (the indices of [enumerate]). *)
Definition fmt_03d (i : Z) : str := rjust0 3 (str_of_int i).

(** [f"{i:02d}"] and [f"{i:04d}"] for [i >= 0] (date fields). *)
Definition fmt_02d (i : Z) : str := rjust0 2 (str_of_int i).
Definition fmt_04d (i : Z) : str := rjust0 4 (str_of_int i).

(** Reading a decimal numeral back, leading zeros allowed; the proofs use
    it as the inverse of the formats above on non-negative numbers. *)
Definition unlit (s : str) : string :=
  string_of_list_ascii (ascii_of_N <$> s).

Definition parse_decimal (s : str) : Z :=
  match NilEmpty.uint_of_string (unlit s) with
  | Some d => Z.of_uint d
  | None => 0
  end.

(** Slice bounds: a negative index counts from the end, then the index is
    clipped to [0, len]. *)
Definition clip (len i : Z) : Z :=
  if i <? 0 then Z.max 0 (i + len) else Z.min i len.

(** [l[lo:hi]] with either bound possibly omitted. *)
Definition slice {A} (l : list A) (lo hi : option Z) : list A :=
  let n := Z.of_nat (length l) in
  let a := from_option (clip n) 0 lo in
  let b := from_option (clip n) n hi in
  take (Z.to_nat (b - a)) (drop (Z.to_nat a) l).

(** The quotient rounded up, for a positive divisor. *)
Definition ceil_div (a b : Z) : Z := (a + b - 1) / b.

(** [range(start, stop, step)] for a positive step: its length is
    [max(0, ceil((stop - start) / step))]. *)
Definition range_len (start stop step : Z) : Z :=
  Z.max 0 (ceil_div (stop - start) step).

Definition range (start stop step : Z) : list Z :=
  (λ i, start + i * step) <$> seqZ 0 (range_len start stop step).

(** [enumerate(l, start)]. *)
Definition enumerate {A} (start : Z) (l : list A) : list (Z * A) :=
  zip (seqZ start (Z.of_nat (length l))) l.

(** [sep.join(parts)]. *)
Fixpoint join (sep : str) (parts : list str) : str :=
  match parts with
  | [] => []
  | [p] => p
  | p :: rest => p ++ sep ++ join sep rest
  end.

(** Truth value of a [str | None]. *)
Definition truthy (o : option str) : bool :=
  match o with
  | Some (_ :: _) => true
  | _ => false
  end.

(** [s.startswith(p)]. *)
Fixpoint startswith (s p : str) : bool :=
  match p, s with
  | [], _ => true
  | c :: p', d :: s' => bool_decide (c = d) && startswith s' p'
  | _ :: _, [] => false
  end.

(** The exception classes the program meets.  All derive from
    [Exception], so [except Exception] catches every one of them. *)
Inductive exn :=
  | ValueError | TypeError | AttributeError | RuntimeError | StopIteration
  | FileNotFoundError | OSError
  | ConnectionError | ChunkedEncodingError | HTTPError | ReadTimeout
  | CouldntDecodeError | CouldntEncodeError
  | OpenAIError | AnthropicError | NotionError
  | ValidationError.

#[export] Instance exn_eq_dec : EqDecision exn.
Proof. solve_decision. Defined.

(** The outcome of a call: a value or a raised exception. *)
Inductive result (A : Type) :=
  | Ok (a : A)
  | Raise (e : exn).
Arguments Ok {A} a.
Arguments Raise {A} e.

Definition is_ok {A} (r : result A) : bool :=
  match r with Ok _ => true | Raise _ => false end.

Definition bind {A B} (r : result A) (k : A → result B) : result B :=
  match r with
  | Ok a => k a
  | Raise e => Raise e
  end.

End Py.

Import Py.

Notation "x ←! r ; k" := (Py.bind r (λ x, k))
  (at level 20, r at level 100, k at level 200, only parsing, right associativity).

(* ===================================================================== *)
(** * audio.py                                                             *)
(* ===================================================================== *)

Module Audio.

(** ** Paths

    A [pathlib.Path] is kept as its parent directory and its final
    component. *)
Record Path := { parent : str; name : str }.

#[global] Instance Path_eq_dec : EqDecision Path.
Proof. solve_decision. Defined.

#[global] Instance Path_countable : Countable Path.
Proof.
  refine (inj_countable' (λ p, (parent p, name p))
                         (λ q, {| parent := q.1; name := q.2 |}) _).
  by intros [].
Defined.

(** [s.rfind(c)]: the index of the last occurrence. *)
Fixpoint rfind (c : N) (s : str) : option nat :=
  match s with
  | [] => None
  | x :: s' =>
      match rfind c s' with
      | Some i => Some (S i)
      | None => if decide (x = c) then Some 0%nat else None
      end
  end.

Definition dot : N := 46%N.

(** [PurePath.suffix] of a final component: [name[i:]] for the last dot at
    [0 < i < len(name) - 1], else empty. *)
Definition suffix (nm : str) : str :=
  match rfind dot nm with
  | Some i =>
      if bool_decide (0 < i)%nat && bool_decide (i < length nm - 1)%nat
      then drop i nm else []
  | None => []
  end.

(** [name[:-len(suffix)]], or the name itself without a suffix. *)
Definition stem (nm : str) : str :=
  take (length nm - length (suffix nm))%nat nm.

(** [p.with_suffix("")]; pathlib raises [ValueError] on an empty name. *)
Definition with_suffix_empty (p : Path) : result Path :=
  match name p with
  | [] => Raise ValueError
  | _ => Ok {| parent := parent p; name := stem (name p) |}
  end.

(** [s.split(sep)[0]]: the part before the first separator. *)
Fixpoint before_first (sep : N) (s : str) : str :=
  match s with
  | [] => []
  | c :: s' => if decide (c = sep) then [] else c :: before_first sep s'
  end.

(** The final component of [Path(s)]: the last component between slashes
    that is neither empty nor a single dot. *)
Fixpoint final_component (acc cur : str) (s : str) : str :=
  let close := if bool_decide (cur = []) || bool_decide (cur = [dot])
               then acc else cur in
  match s with
  | [] => close
  | c :: s' =>
      if decide (c = 47%N) then final_component close [] s'
      else final_component acc (cur ++ [c]) s'
  end.

(** [Path(url.split("?")[0]).suffix or ".mp3"] *)
Definition url_ext (url : str) : str :=
  match suffix (final_component [] [] (before_first 63%N url)) with
  | [] => lit ".mp3"
  | ext => ext
  end.

(** ** Files and the audio codec *)

(** A file of the temporary directory: its size in bytes and the audio it
    decodes to, one frame per millisecond ([len(AudioSegment)] counts
    milliseconds). *)
Record file := { st_size : Z; frames : list Z }.

Abbreviation fsys := (gmap Path file).

(** One [requests.get] attempt: the body arrives whole, or an exception is
    raised, possibly after part of the body was written to disk. *)
Inductive http_outcome :=
  | HttpOk (f : file)
  | HttpError (e : exn) (partial : option file).

(** pydub, when it can be imported: decoding may fail, and so may the
    export of a segment (which otherwise yields the size of the mp3). *)
Record Codec := {
  can_decode : file → bool;
  export_size : list Z → option Z
}.

Record Services := {
  http_get : str → nat → http_outcome;
  pydub : option Codec
}.

Definition WHISPER_MAX_BYTES : Z := 24 * 1024 * 1024.
Definition _DOWNLOAD_RETRIES : nat := 3.
Definition chunk_ms : Z := 10 * 60 * 1000.

(** The exception classes that the [requests] package exports under its
    own name (the import list of [requests/__init__.py]: [ConnectionError],
    [ConnectTimeout], [HTTPError], [JSONDecodeError], [ReadTimeout],
    [RequestException], [Timeout], [TooManyRedirects], [URLRequired]), as
    far as the program meets them.  [ChunkedEncodingError] is a class of
    [requests.exceptions] that the package does not export. *)
Definition requests_exports : list (string * exn) :=
  [("ConnectionError", ConnectionError); ("HTTPError", HTTPError);
   ("ReadTimeout", ReadTimeout)]%string.

(** [requests.name]: an attribute the package does not have raises
    [AttributeError]. *)
Definition requests_getattr (name : string) : result exn :=
  match List.find (λ kv, String.eqb kv.1 name) requests_exports with
  | Some kv => Ok kv.2
  | None => Raise AttributeError
  end.

(** The tuple [(requests.ConnectionError, requests.ChunkedEncodingError)]
    of the [except] clause.  It is evaluated when an exception reaches
    the clause, and an exception raised then takes the place of the one
    that was under way. *)
Definition except_classes : result (list exn) :=
  a ←! requests_getattr "ConnectionError";
  b ←! requests_getattr "ChunkedEncodingError";
  Ok [a; b].

(** Whether the [except] clause catches [e]. *)
Definition retried (e : exn) : result bool :=
  classes ←! except_classes;
  Ok (bool_decide (e ∈ classes)).

(** The body of the retry loop of [download_audio], over the remaining
    attempt numbers. *)
Fixpoint download_attempts (sv : Services) (url : str) (dest : Path)
    (attempts : list nat) (fs : fsys) : result Path * fsys :=
  match attempts with
  | [] => (Raise RuntimeError, fs)
  | attempt :: rest =>
      let fs1 := delete dest fs in
      match http_get sv url attempt with
      | HttpOk f => (Ok dest, <[dest := f]> fs1)
      | HttpError e partial =>
          let fs2 := match partial with
                     | Some f => <[dest := f]> fs1
                     | None => fs1
                     end in
          match retried e with
          | Raise raised => (Raise raised, fs2)
          | Ok true =>
              if decide (attempt = _DOWNLOAD_RETRIES) then (Raise e, fs2)
              else download_attempts sv url dest rest fs2
          | Ok false => (Raise e, fs2)
          end
      end
  end.

(** [temp_path / f"episode_{episode_number}{ext}"]; [temp_dir] stands
    for the directory as [Path(temp_dir)] writes it (without a trailing
    slash or single-dot components). *)
Definition download_dest (url temp_dir : str) (episode_number : Z) : Path :=
  {| parent := temp_dir;
     name := lit "episode_" ++ str_of_int episode_number ++ url_ext url |}.

(** [download_audio]: attempts 1 to [_DOWNLOAD_RETRIES]; the result and
    the files afterwards. *)
Definition download_audio (sv : Services) (url temp_dir : str)
    (episode_number : Z) (fs : fsys) : result Path * fsys :=
  download_attempts sv url (download_dest url temp_dir episode_number)
    (seq 1 _DOWNLOAD_RETRIES) fs.

(** [base.parent / f"{base.name}_chunk{i:03d}.mp3"] *)
Definition chunk_path (base : Path) (i : Z) : Path :=
  {| parent := parent base;
     name := name base ++ lit "_chunk" ++ fmt_03d i ++ lit ".mp3" |}.

(** The export loop of [split_audio_if_needed]: one chunk per start
    offset.  [export] opens the chunk file for writing before it encodes:
    a failed export raises and leaves the chunks written so far and an
    empty file where the failing chunk was to go. *)
Fixpoint export_chunks (cd : Codec) (audio : list Z) (base : Path)
    (starts : list (Z * Z)) (chunks : list Path) (fs : fsys)
    : result (list Path) * fsys :=
  match starts with
  | [] => (Ok chunks, fs)
  | (i, start) :: rest =>
      let chunk := slice audio (Some start) (Some (start + chunk_ms)) in
      let cp := chunk_path base i in
      match export_size cd chunk with
      | None =>
          (Raise CouldntEncodeError, <[cp := {| st_size := 0; frames := [] |}]> fs)
      | Some sz =>
          export_chunks cd audio base rest (chunks ++ [cp])
            (<[cp := {| st_size := sz; frames := chunk |}]> fs)
      end
  end.

(** [split_audio_if_needed]: the paths it returns, or the exception it
    raises, and the files afterwards. *)
Definition split_audio_if_needed (sv : Services) (audio_path : Path)
    (fs : fsys) : result (list Path) * fsys :=
  match fs !! audio_path with
  | None => (Raise FileNotFoundError, fs)
  | Some f =>
      if st_size f <=? WHISPER_MAX_BYTES then (Ok [audio_path], fs)
      else
        match pydub sv with
        | None => (Raise RuntimeError, fs)
        | Some cd =>
            if can_decode cd f then
              let audio := frames f in
              match with_suffix_empty audio_path with
              | Raise e => (Raise e, fs)
              | Ok base =>
                  match export_chunks cd audio base
                          (enumerate 0 (range 0 (Z.of_nat (length audio)) chunk_ms))
                          [] fs with
                  | (Raise e, fs') => (Raise e, fs')
                  | (Ok chunks, fs') =>
                      match fs' !! audio_path with
                      | None => (Raise FileNotFoundError, fs')
                      | Some _ => (Ok chunks, delete audio_path fs')
                      end
                  end
              end
            else (Raise CouldntDecodeError, fs)
        end
  end.

(** [cleanup_audio]: [unlink(missing_ok=True)] on every path. *)
Definition cleanup_audio (paths : list Path) (fs : fsys) : fsys :=
  foldl (λ acc p, delete p acc) fs paths.

End Audio.

(* ===================================================================== *)
(** * models.py                                                            *)
(* ===================================================================== *)

Module Models.

(** An aware UTC [datetime], down to the second. *)
Record datetime := {
  year : Z; month : Z; day : Z; hour : Z; minute : Z; second : Z
}.

Record RecipeEntry := {
  r_name : str;
  style : option str;
  grain_bill : option (list str);
  hop_schedule : option (list str);
  yeast : option str;
  og : option str;
  fg : option str;
  process_notes : option str
}.

Record BrewingInsights := {
  episode_summary : str;
  brewing_techniques : list str;
  recipes : list RecipeEntry;
  ingredients_and_products : list str;
  business_and_marketing : list str;
  key_takeaways : list str
}.

Record Episode := {
  number : Z;
  title : str;
  published : datetime;
  audio_url : str;
  description : str;
  podcast_name : str
}.

End Models.

(* ===================================================================== *)
(** * state.py                                                             *)
(* ===================================================================== *)

Module State.

(** One value of the ledger document. *)
Record LedgerEntry := {
  l_title : str;
  l_notion_url : str;
  processed_at : str
}.

(** The files that hold ledger documents, by path: what [json.dump]
    wrote is what [json.load] reads back, and a write goes through. *)
Abbreviation disk := (gmap str (gmap str LedgerEntry)).

Record StateManager := {
  state_file : str;
  _state : gmap str LedgerEntry
}.

Definition STATE_FILE : str := lit "processed_episodes.json".

Definition _load (state_file : str) (d : disk) : gmap str LedgerEntry :=
  match d !! state_file with
  | Some doc => doc
  | None => ∅
  end.

(** [StateManager(state_file)] *)
Definition init (state_file : str) (d : disk) : StateManager :=
  {| state_file := state_file; _state := _load state_file d |}.

Definition is_processed (sm : StateManager) (episode_number : Z) : bool :=
  bool_decide (is_Some (_state sm !! str_of_int episode_number)).

Definition _save (sm : StateManager) (d : disk) : disk :=
  <[state_file sm := _state sm]> d.

(** [utcnow] is the clock reading [datetime.utcnow().isoformat()]. *)
Definition mark_processed (sm : StateManager) (episode_number : Z)
    (notion_url episode_title utcnow : str) (d : disk) : StateManager * disk :=
  let sm' := {| state_file := state_file sm;
                _state := <[str_of_int episode_number :=
                             {| l_title := episode_title;
                                l_notion_url := notion_url;
                                processed_at := utcnow |}]> (_state sm) |} in
  (sm', _save sm' d).

Definition get_processed_count (sm : StateManager) : nat :=
  size (_state sm).

End State.

(* ===================================================================== *)
(** * feed.py                                                              *)
(* ===================================================================== *)

Module Feed.
Import Models.

(** What [feedparser.parse] hands back.  A missing key of an entry is
    [None]; a missing [enclosures] or [links] list is the empty list, as
    [entry.get(key, [])] reads it. *)
Record Enclosure := {
  enc_type : option str;
  enc_href : option str;
  enc_url : option str
}.

Record Link := {
  rel : option str;
  href : option str
}.

Record struct_time := {
  tm_year : Z; tm_mon : Z; tm_mday : Z; tm_hour : Z; tm_min : Z;
  tm_sec : Z; tm_wday : Z; tm_yday : Z; tm_isdst : Z
}.

Record Entry := {
  e_title : option str;
  published_parsed : option struct_time;
  summary : option str;
  enclosures : list Enclosure;
  links : list Link
}.

Record ParsedFeed := {
  bozo : bool;
  feed_title : option str;
  entries : list Entry
}.

(** A [struct_time] as the tuple it is. *)
Definition as_tuple (t : struct_time) : list Z :=
  [tm_year t; tm_mon t; tm_mday t; tm_hour t; tm_min t; tm_sec t;
   tm_wday t; tm_yday t; tm_isdst t].

(** [a < b] on tuples of integers. *)
Fixpoint tuple_lt (a b : list Z) : bool :=
  match a, b with
  | [], [] => false
  | [], _ :: _ => true
  | _ :: _, [] => false
  | x :: a', y :: b' =>
      if x <? y then true else if y <? x then false else tuple_lt a' b'
  end.

(** Aware datetimes of one time zone compare field by field. *)
Definition datetime_tuple (d : datetime) : list Z :=
  [year d; month d; day d; hour d; minute d; second d].

Definition datetime_lt (a b : datetime) : bool :=
  tuple_lt (datetime_tuple a) (datetime_tuple b).

(** [a or b] on optional strings. *)
Definition or_else (a b : option str) : option str :=
  if truthy a then a else b.

Fixpoint first_audio_enclosure (encs : list Enclosure) : option Enclosure :=
  match encs with
  | [] => None
  | enc :: rest =>
      if startswith (default [] (enc_type enc)) (lit "audio/")
      then Some enc else first_audio_enclosure rest
  end.

Fixpoint first_enclosure_link (ls : list Link) : option str :=
  match ls with
  | [] => None
  | link :: rest =>
      if bool_decide (rel link = Some (lit "enclosure")) && truthy (href link)
      then href link else first_enclosure_link rest
  end.

Definition _extract_audio_url (entry : Entry) : option str :=
  match first_audio_enclosure (enclosures entry) with
  | Some enc => or_else (enc_href enc) (enc_url enc)
  | None => first_enclosure_link (links entry)
  end.

(** The [datetime] built from the first six fields of
    [published_parsed], or the clock when there is none.  The dates the
    feed parser hands back are valid, so the constructor does not raise. *)
Definition _parse_date (now : datetime) (pp : option struct_time) : datetime :=
  match pp with
  | Some t => {| year := tm_year t; month := tm_mon t; day := tm_mday t;
                 hour := tm_hour t; minute := tm_min t; second := tm_sec t |}
  | None => now
  end.

(** [str.isspace] on one code point. *)
Definition isspace (c : N) : bool :=
  ((9 <=? c) && (c <=? 13) || (28 <=? c) && (c <=? 32)
   || (c =? 133) || (c =? 160) || (c =? 5760)
   || (8192 <=? c) && (c <=? 8202) || (c =? 8232) || (c =? 8233)
   || (c =? 8239) || (c =? 8287) || (c =? 12288))%N.

Fixpoint lstrip (s : str) : str :=
  match s with
  | c :: s' => if isspace c then lstrip s' else s
  | [] => []
  end.

Definition strip (s : str) : str := reverse (lstrip (reverse (lstrip s))).

(** The position of the first [>] of [s], if any. *)
Fixpoint find_gt (s : str) : option nat :=
  match s with
  | [] => None
  | c :: s' => if decide (c = 62%N) then Some 0%nat else S <$> find_gt s'
  end.

(** [re.sub] of the tag pattern by the empty string: every [<], one or
    more characters other than [>], and the [>] that follows, is removed,
    scanning from the left.  [fuel] bounds the scan by the length of the
    text. *)
Fixpoint sub_tags (fuel : nat) (s : str) : str :=
  match fuel with
  | O => s
  | S fuel' =>
      match s with
      | [] => []
      | c :: s' =>
          if decide (c = 60%N) then
            match find_gt s' with
            | Some (S k) => sub_tags fuel' (drop (S (S k)) s')
            | _ => c :: sub_tags fuel' s'
            end
          else c :: sub_tags fuel' s'
      end
  end.

Definition _strip_html (text : str) : str :=
  strip (sub_tags (length text) text).

(** The sort key [x[0].get("published_parsed") or (0,)]. *)
Definition sort_key (x : Entry * str) : list Z :=
  match published_parsed x.1 with
  | Some t => as_tuple t
  | None => [0]
  end.

(** [list.sort(key=...)] is stable: each element is placed, among those
    that follow it in the list, behind the ones with a smaller key and
    before the ones with an equal or greater key. *)
Fixpoint insert_by {A} (key : A → list Z) (x : A) (l : list A) : list A :=
  match l with
  | [] => [x]
  | y :: l' =>
      if tuple_lt (key y) (key x) then y :: insert_by key x l'
      else x :: y :: l'
  end.

Definition sort_by {A} (key : A → list Z) (l : list A) : list A :=
  foldr (insert_by key) [] l.

(** The order the sort establishes: the key of [y] is not smaller than
    the key of [x]. *)
Definition key_le {A} (key : A → list Z) (x y : A) : Prop :=
  tuple_lt (key y) (key x) = false.

(** An entry has a resolvable audio locator when [_extract_audio_url]
    gives a non-empty string. *)
Definition has_audio (entry : Entry) : bool :=
  truthy (_extract_audio_url entry).

Definition entries_with_audio (es : list Entry) : list (Entry * str) :=
  omap (λ entry,
          let audio_url := _extract_audio_url entry in
          if truthy audio_url then (λ u, (entry, u)) <$> audio_url else None)
       es.

(** The record the second loop of [parse_feed] appends for a numbered
    audio entry. *)
Definition episode_of (now : datetime) (podcast_name : str)
    (ix : Z * (Entry * str)) : Episode :=
  {| number := ix.1;
     title := default (lit "Untitled") (e_title ix.2.1);
     published := _parse_date now (published_parsed ix.2.1);
     audio_url := ix.2.2;
     description := _strip_html (default [] (summary ix.2.1));
     podcast_name := podcast_name |}.

Definition parse_feed (now : datetime) (feed : ParsedFeed) : list Episode :=
  if bozo feed && bool_decide (entries feed = []) then []
  else
    let podcast_name := default (lit "Unknown Podcast") (feed_title feed) in
    episode_of now podcast_name
    <$> enumerate 1 (sort_by sort_key (entries_with_audio (entries feed))).

(** The records of [parse_feed], each with the entry of the second loop
    that it is made from. *)
Definition records_with_entries (now : datetime) (feed : ParsedFeed)
    : list (Episode * Entry) :=
  let podcast_name := default (lit "Unknown Podcast") (feed_title feed) in
  (λ ix, (episode_of now podcast_name ix, ix.2.1))
  <$> enumerate 1 (sort_by sort_key (entries_with_audio (entries feed))).

End Feed.

(* ===================================================================== *)
(** * transcriber.py                                                       *)
(* ===================================================================== *)

Module Transcriber.
Import Audio.

Definition separator : str := [10; 10; 45; 45; 45; 10; 10]%N.

(** The chunks are opened and submitted one by one, in order; [whisper]
    is the transcription service. *)
Fixpoint transcribe_all (whisper : file → result str) (audio_paths : list Path)
    (fs : fsys) : result (list str) :=
  match audio_paths with
  | [] => Ok []
  | path :: rest =>
      match fs !! path with
      | None => Raise FileNotFoundError
      | Some f =>
          response ←! whisper f;
          transcripts ←! transcribe_all whisper rest fs;
          Ok (response :: transcripts)
      end
  end.

Definition transcribe (whisper : file → result str) (audio_paths : list Path)
    (fs : fsys) : result str :=
  transcripts ←! transcribe_all whisper audio_paths fs;
  Ok (join separator transcripts).

End Transcriber.

(* ===================================================================== *)
(** * extractor.py                                                         *)
(* ===================================================================== *)

Module Extractor.
Import Models.

#[local] Unset Elimination Schemes.
(** A JSON value, as the tool input of the extraction service carries. *)
Inductive json :=
  | JNull
  | JBool (b : bool)
  | JNum (z : Z)
  | JStr (s : str)
  | JArr (l : list json)
  | JObj (m : gmap str json).
#[local] Set Elimination Schemes.

(** A block of [response.content]. *)
Inductive ContentBlock :=
  | TextBlock (text : str)
  | ToolUseBlock (input : gmap str json).

Fixpoint mapM {A B} (f : A → result B) (l : list A) : result (list B) :=
  match l with
  | [] => Ok []
  | x :: rest => y ←! f x; ys ←! mapM f rest; Ok (y :: ys)
  end.

(** The validation the models of models.py apply to their fields. *)
Definition validate_str (j : json) : result str :=
  match j with
  | JStr s => Ok s
  | _ => Raise ValidationError
  end.

Definition validate_list_str (j : json) : result (list str) :=
  match j with
  | JArr l => mapM validate_str l
  | _ => Raise ValidationError
  end.

(** An [Optional] field: absent or [null] is [None]. *)
Definition validate_optional {A} (v : json → result A) (o : option json)
    : result (option A) :=
  match o with
  | None | Some JNull => Ok None
  | Some j => a ←! v j; Ok (Some a)
  end.

(** [RecipeEntry] built from the keyword expansion of [r]: [r] has to be
    a mapping, and [name] is required. *)
Definition recipe_entry (r : json) : result RecipeEntry :=
  match r with
  | JObj m =>
      match m !! lit "name" with
      | None => Raise ValidationError
      | Some j =>
          nm ←! validate_str j;
          st ←! validate_optional validate_str (m !! lit "style");
          gb ←! validate_optional validate_list_str (m !! lit "grain_bill");
          hs ←! validate_optional validate_list_str (m !! lit "hop_schedule");
          ye ←! validate_optional validate_str (m !! lit "yeast");
          o ←! validate_optional validate_str (m !! lit "og");
          f ←! validate_optional validate_str (m !! lit "fg");
          pn ←! validate_optional validate_str (m !! lit "process_notes");
          Ok {| r_name := nm; style := st; grain_bill := gb;
                hop_schedule := hs; yeast := ye; og := o; fg := f;
                process_notes := pn |}
      end
  | _ => Raise TypeError
  end.

(** The comprehension over [data.get("recipes", [])]: an array gives its
    elements; an empty string or object iterates over nothing; anything
    else cannot be iterated, or yields strings that are no mappings. *)
Definition recipe_entries (j : json) : result (list RecipeEntry) :=
  match j with
  | JArr l => mapM recipe_entry l
  | JStr [] => Ok []
  | JObj m => if decide (size m = 0%nat) then Ok [] else Raise TypeError
  | _ => Raise TypeError
  end.

(** [data.get(key, default)] *)
Definition get (data : gmap str json) (key : string) (dflt : json) : json :=
  default dflt (data !! lit key).

(** From the tool input to the [BrewingInsights] record. *)
Definition insights_of_data (data : gmap str json) : result BrewingInsights :=
  rs ←! recipe_entries (get data "recipes" (JArr []));
  es ←! validate_str (get data "episode_summary" (JStr []));
  bt ←! validate_list_str (get data "brewing_techniques" (JArr []));
  ip ←! validate_list_str (get data "ingredients_and_products" (JArr []));
  bm ←! validate_list_str (get data "business_and_marketing" (JArr []));
  kt ←! validate_list_str (get data "key_takeaways" (JArr []));
  Ok {| episode_summary := es; brewing_techniques := bt; recipes := rs;
        ingredients_and_products := ip; business_and_marketing := bm;
        key_takeaways := kt |}.



(** [next(b for b in response.content if b.type == "tool_use")] *)
Fixpoint next_tool_use (content : list ContentBlock) : result (gmap str json) :=
  match content with
  | [] => Raise StopIteration
  | ToolUseBlock input :: _ => Ok input
  | _ :: rest => next_tool_use rest
  end.

Definition nl : str := [10%N].

Definition user_message (transcript episode_title episode_description : str) : str :=
  lit "Episode Title: " ++ episode_title ++ nl ++ nl
  ++ lit "Episode Description:" ++ nl ++ episode_description ++ nl ++ nl
  ++ lit "Transcript:" ++ nl ++ transcript ++ nl ++ nl
  ++ lit "Please extract all brewing insights from this podcast episode using the "
  ++ lit "extract_brewing_insights tool.".

(** [claude] is the extraction service: the content of its response to
    the user message, or the exception the client raises. *)
Definition extract_insights (claude : str → result (list ContentBlock))
    (transcript episode_title episode_description : str)
    : result BrewingInsights :=
  content ←! claude (user_message transcript episode_title episode_description);
  data ←! next_tool_use content;
  insights_of_data data.

End Extractor.

(* ===================================================================== *)
(** * notion_writer.py                                                     *)
(* ===================================================================== *)

Module NotionWriter.
Import Models.

Definition _NOTION_TEXT_LIMIT : Z := 2000.
Definition _NOTION_BLOCK_LIMIT : Z := 100.

(** [text[:_NOTION_TEXT_LIMIT]] *)
Definition truncated (text : str) : str :=
  slice text None (Some _NOTION_TEXT_LIMIT).

(** A content block; the text it carries is the [content] of its single
    rich-text object. *)
Inductive block :=
  | heading_2 (content : str)
  | heading_3 (content : str)
  | paragraph (content : str)
  | callout (emoji : str) (content : str)
  | divider
  | bulleted_list_item (content : str).

(** A page property. *)
Inductive prop :=
  | p_title (content : str)
  | p_number (n : Z)
  | p_date (start : str)
  | p_rich_text (content : str)
  | p_url (url : str).






(** The publication service.  [databases_update] answers with the names
    of the properties of the database; [pages_create] with the id and the
    URL of the new page; the number given to [blocks_children_append]
    counts the append calls made before it. *)
Record Client := {
  databases_update : str → result (list str);
  pages_create : str → gmap str prop → list block → result (str * str);
  blocks_children_append : nat → str → list block → result unit
}.

(** The write calls issued to the service, in order. *)
Inductive call :=
  | PagesCreate (database_id : str) (properties : gmap str prop)
                (children : list block)
  | BlocksChildrenAppend (block_id : str) (children : list block).



Definition _ensure_database_properties (notion : Client) (database_id : str)
    : gset str :=
  match databases_update notion database_id with
  | Ok names => list_to_set names
  | Raise _ => ∅
  end.

Definition _heading2 (text : str) : block := heading_2 (truncated text).
Definition _heading3 (text : str) : block := heading_3 (truncated text).
Definition _paragraph (text : str) : block := paragraph (truncated text).
Definition _callout (text emoji : str) : block := callout emoji (truncated text).
Definition _divider : block := divider.

Definition _bulleted_list (items : list str) (empty_text : str) : list block :=
  match items with
  | [] => match empty_text with
          | [] => []
          | _ => [_paragraph empty_text]
          end
  | _ => (λ item, bulleted_list_item (truncated item)) <$> items
  end.

(** The lines a truthy optional field adds to the details of a recipe. *)
Definition if_str (o : option str) (k : str → list str) : list str :=
  match o with
  | Some (c :: s) => k (c :: s)
  | _ => []
  end.

Definition if_list (o : option (list str)) (k : list str → list str) : list str :=
  match o with
  | Some (x :: l) => k (x :: l)
  | _ => []
  end.

Definition bullet : str := [32; 32; 8226; 32]%N.

Definition _recipe_blocks (recipe : RecipeEntry) : list block :=
  let details :=
    if_str (style recipe) (λ s, [lit "Style: " ++ s])
    ++ if_str (og recipe) (λ s, [lit "OG: " ++ s])
    ++ if_str (fg recipe) (λ s, [lit "FG: " ++ s])
    ++ if_str (yeast recipe) (λ s, [lit "Yeast: " ++ s])
    ++ if_list (grain_bill recipe)
         (λ gs, lit "Grain Bill:" :: ((λ g, bullet ++ g) <$> gs))
    ++ if_list (hop_schedule recipe)
         (λ hs, lit "Hop Schedule:" :: ((λ h, bullet ++ h) <$> hs))
    ++ if_str (process_notes recipe) (λ s, [lit "Process: " ++ s]) in
  _heading3 (r_name recipe) :: _bulleted_list details [].

Definition beer : str := [127866%N].

Definition _build_blocks (episode : Episode) (insights : BrewingInsights)
    : list block :=
  [_callout (episode_summary insights) beer; _divider]
  ++ [_heading2 (lit "Brewing Techniques")]
  ++ _bulleted_list (brewing_techniques insights)
       (lit "No techniques specifically noted in this episode.")
  ++ [_divider]
  ++ [_heading2 (lit "Recipes")]
  ++ match recipes insights with
     | [] => [_paragraph (lit "No recipes discussed in this episode.")]
     | rs => rs ≫= _recipe_blocks
     end
  ++ [_divider]
  ++ [_heading2 (lit "Ingredients & Products Mentioned")]
  ++ _bulleted_list (ingredients_and_products insights)
       (lit "No specific ingredients or products mentioned.")
  ++ [_divider]
  ++ [_heading2 (lit "Business & Marketing Insights")]
  ++ _bulleted_list (business_and_marketing insights)
       (lit "No business or marketing insights in this episode.")
  ++ [_divider]
  ++ [_heading2 (lit "Key Takeaways")]
  ++ _bulleted_list (key_takeaways insights)
       (lit "No standout takeaways noted.")
  ++ [_divider]
  ++ [_heading3 (lit "Original Episode Description")]
  ++ [_paragraph match description episode with
                 | [] => lit "No description available."
                 | d => truncated d
                 end].

(** [d.date().isoformat()] *)
Definition date_isoformat (d : datetime) : str :=
  fmt_04d (year d) ++ lit "-" ++ fmt_02d (month d) ++ lit "-" ++ fmt_02d (day d).

(** The regular-expression engine is a library: [strip_episode_prefix]
    stands for the substitution of the title-prefix pattern by the empty
    string. *)
Definition _clean_title (strip_episode_prefix : str → str) (title : str) : str :=
  Feed.strip (strip_episode_prefix title).

Definition _build_properties (strip_episode_prefix : str → str) (now : datetime)
    (episode : Episode) (existing_props : gset str) : gmap str prop :=
  let props : gmap str prop :=
    {[ lit "Name" :=
         p_title (truncated (lit "[Ep. " ++ str_of_int (number episode) ++ lit "] "
                             ++ _clean_title strip_episode_prefix (title episode))) ]} in
  let optional : list (str * prop) :=
    [ (lit "Episode Number", p_number (number episode));
      (lit "Published Date", p_date (date_isoformat (published episode)));
      (lit "Podcast Name", p_rich_text (truncated (podcast_name episode)));
      (lit "Audio URL", p_url (audio_url episode));
      (lit "Processed At", p_date (date_isoformat now)) ] in
  foldl (λ (props : gmap str prop) (kv : str * prop),
           if decide (kv.1 ∈ existing_props) then <[kv.1 := kv.2]> props else props)
        props optional.

(** The append loop: one call per start offset of the range. *)
Fixpoint append_batches (notion : Client) (page_id : str) (remaining : list block)
    (starts : list Z) (done : nat) : result unit * list call :=
  match starts with
  | [] => (Ok (), [])
  | i :: rest =>
      let batch := slice remaining (Some i) (Some (i + _NOTION_BLOCK_LIMIT)) in
      match blocks_children_append notion done page_id batch with
      | Raise e => (Raise e, [BlocksChildrenAppend page_id batch])
      | Ok _ =>
          let '(r, calls) := append_batches notion page_id remaining rest (S done) in
          (r, BlocksChildrenAppend page_id batch :: calls)
      end
  end.

Definition create_episode_page (strip_episode_prefix : str → str) (now : datetime)
    (notion : Client) (episode : Episode) (insights : BrewingInsights)
    (database_id : str) : result str * list call :=
  let existing_props := _ensure_database_properties notion database_id in
  let properties := _build_properties strip_episode_prefix now episode existing_props in
  let all_blocks := _build_blocks episode insights in
  let first_batch := slice all_blocks None (Some _NOTION_BLOCK_LIMIT) in
  let remaining := slice all_blocks (Some _NOTION_BLOCK_LIMIT) None in
  match pages_create notion database_id properties first_batch with
  | Raise e => (Raise e, [PagesCreate database_id properties first_batch])
  | Ok (page_id, url) =>
      let '(r, calls) :=
        append_batches notion page_id remaining
          (range 0 (Z.of_nat (length remaining)) _NOTION_BLOCK_LIMIT) 0 in
      (match r with Ok _ => Ok url | Raise e => Raise e end,
       PagesCreate database_id properties first_batch :: calls)
  end.

End NotionWriter.

(* ===================================================================== *)
(** * config.py                                                            *)
(* ===================================================================== *)

Module Config.

Record Config := {
  openai_api_key : str;
  anthropic_api_key : str;
  notion_api_key : str;
  notion_database_id : str;
  rss_feed_url : str;
  temp_dir : str
}.

(** The environment after [load_dotenv]. *)
Abbreviation environ := (gmap str str).

Definition required_keys : list string :=
  ["OPENAI_API_KEY"; "ANTHROPIC_API_KEY"; "NOTION_API_KEY";
   "NOTION_DATABASE_ID"; "RSS_FEED_URL"]%string.

(** [[k for k, v in required.items() if not v]] *)
Definition missing (env : environ) : list string :=
  List.filter (λ k, negb (truthy (env !! lit k))) required_keys.

(** The body of [load_config], once its parameter is bound. *)
Definition load_config_body (env : environ) (feed_url_override : option str)
    : result Config :=
  match missing env with
  | _ :: _ => Raise ValueError
  | [] =>
      Ok {| openai_api_key := default [] (env !! lit "OPENAI_API_KEY");
            anthropic_api_key := default [] (env !! lit "ANTHROPIC_API_KEY");
            notion_api_key := default [] (env !! lit "NOTION_API_KEY");
            notion_database_id := default [] (env !! lit "NOTION_DATABASE_ID");
            rss_feed_url :=
              default [] (Feed.or_else feed_url_override (env !! lit "RSS_FEED_URL"));
            temp_dir := default (lit "/tmp/podscriber") (env !! lit "TEMP_DIR") |}
  end.

(** The parameters in the signature of [load_config]. *)
Definition load_config_params : list string := ["feed_url_override"]%string.

(** A call of [load_config] with keyword arguments: a keyword that is not
    a parameter raises [TypeError] before the body runs; an omitted
    parameter takes its default, [None]. *)
Definition load_config (env : environ) (kwargs : list (string * option str))
    : result Config :=
  if forallb (λ kw, bool_decide (kw.1 ∈ load_config_params)) kwargs then
    load_config_body env
      (default None (snd <$> List.find (λ kw, String.eqb kw.1 "feed_url_override") kwargs))
  else Raise TypeError.

End Config.

(* ===================================================================== *)
(** * main.py                                                              *)
(* ===================================================================== *)

Module Main.
Import Models.

(** The command line, as click parses it. *)
Record Args := {
  episode : option Z;
  from_episode : option Z;
  limit : option Z;
  dry_run : bool;
  feed_url : option str;
  database_id : option str
}.

(** Everything the run reads from outside. *)
Record World := {
  env : Config.environ;
  feedparser_parse : str → Feed.ParsedFeed;
  now : datetime;
  utcnow_isoformat : str;
  audio_services : Audio.Services;
  whisper : Audio.file → result str;
  claude : str → result (list Extractor.ContentBlock);
  notion : NotionWriter.Client;
  strip_episode_prefix : str → str
}.

(** Everything the run changes: the temporary audio files, the ledger
    file, the ledger object in memory, and the calls made to the
    publication service so far.  The local file system is taken to work:
    directories can be made, a ledger file that exists holds a document,
    and writing and unlinking succeed. *)
Record Store := {
  fs : Audio.fsys;
  ledger_files : State.disk;
  state : State.StateManager;
  notion_calls : list NotionWriter.call
}.

(** The [try] block of [_process_episode]: the value of [audio_paths]
    when the block is left, how it was left, and the store. *)
Definition try_block (w : World) (ep : Episode) (config : Config.Config)
    (s : Store) : list Audio.Path * result str * Store :=
  let with_fs fs' :=
    {| fs := fs'; ledger_files := ledger_files s; state := state s;
       notion_calls := notion_calls s |} in
  match Audio.download_audio (audio_services w) (audio_url ep)
          (Config.temp_dir config) (number ep) (fs s) with
  | (Raise e, fs1) => ([], Raise e, with_fs fs1)
  | (Ok raw_path, fs1) =>
  match Audio.split_audio_if_needed (audio_services w) raw_path fs1 with
  | (Raise e, fs2) => ([], Raise e, with_fs fs2)
  | (Ok audio_paths, fs2) =>
  match Transcriber.transcribe (whisper w) audio_paths fs2 with
  | Raise e => (audio_paths, Raise e, with_fs fs2)
  | Ok transcript =>
  match Extractor.extract_insights (claude w) transcript (title ep)
          (description ep) with
  | Raise e => (audio_paths, Raise e, with_fs fs2)
  | Ok insights =>
  match NotionWriter.create_episode_page (strip_episode_prefix w) (now w)
          (notion w) ep insights (Config.notion_database_id config) with
  | (Raise e, calls) =>
      (audio_paths, Raise e,
       {| fs := fs2; ledger_files := ledger_files s; state := state s;
          notion_calls := notion_calls s ++ calls |})
  | (Ok notion_url, calls) =>
      let '(sm, d) :=
        State.mark_processed (state s) (number ep) notion_url (title ep)
          (utcnow_isoformat w) (ledger_files s) in
      (audio_paths, Ok notion_url,
       {| fs := fs2; ledger_files := d; state := sm;
          notion_calls := notion_calls s ++ calls |})
  end end end end end.

(** The run of the pipeline on [ep] reached the publication step and
    [create_episode_page] returned [url]: every stage before it returned
    as well. *)
Definition publication_returned (w : World) (ep : Episode)
    (config : Config.Config) (s : Store) (url : str) : Prop :=
  ∃ raw_path fs1 audio_paths fs2 transcript insights calls,
    Audio.download_audio (audio_services w) (audio_url ep)
      (Config.temp_dir config) (number ep) (fs s) = (Ok raw_path, fs1) ∧
    Audio.split_audio_if_needed (audio_services w) raw_path fs1
      = (Ok audio_paths, fs2) ∧
    Transcriber.transcribe (whisper w) audio_paths fs2 = Ok transcript ∧
    Extractor.extract_insights (claude w) transcript (title ep) (description ep)
      = Ok insights ∧
    NotionWriter.create_episode_page (strip_episode_prefix w) (now w) (notion w)
      ep insights (Config.notion_database_id config) = (Ok url, calls).

(** [_process_episode]: the exception of the [try] block is logged and
    swallowed; the [finally] clause cleans up when [audio_paths] is not
    empty. *)
Definition _process_episode (w : World) (config : Config.Config) (s : Store)
    (ep : Episode) : Store :=
  let '(audio_paths, _, s') := try_block w ep config s in
  match audio_paths with
  | [] => s'
  | _ => {| fs := Audio.cleanup_audio audio_paths (fs s');
            ledger_files := ledger_files s'; state := state s';
            notion_calls := notion_calls s' |}
  end.

(** Lines 41 to 52 of [main]: the targets, or [None] where the code
    leaves through [sys.exit(1)]. *)
Definition select_targets (a : Args) (st : State.StateManager)
    (episodes : list Episode) : option (list Episode) :=
  match episode a with
  | Some n =>
      let targets := List.filter (λ ep, number ep =? n) episodes in
      match targets with
      | [] => None
      | _ => Some targets
      end
  | None =>
      let targets :=
        List.filter (λ ep, negb (State.is_processed st (number ep))) episodes in
      let targets :=
        match from_episode a with
        | Some f => List.filter (λ ep, f <=? number ep) targets
        | None => targets
        end in
      let targets :=
        match limit a with
        | Some n => slice targets None (Some n)
        | None => targets
        end in
      Some targets
  end.

(** The selection policy of batch mode in the words of the
    specification: an episode is eligible when the ledger does not mark it
    processed and its number is not below the floor, if one is given; the
    eligible episodes are kept in feed order and cut to the first [limit],
    if one is given. *)
Definition eligible (a : Args) (st : State.StateManager) (ep : Episode) : bool :=
  negb (State.is_processed st (number ep))
  && match from_episode a with
     | Some f => f <=? number ep
     | None => true
     end.


(** How a run ends: the exit code of the process, the files and the
    ledger file it leaves, the calls made to the publication service, the
    targets it listed and the episodes it handed to [_process_episode]. *)
Record Outcome := {
  exit_code : Z;
  final_fs : Audio.fsys;
  final_ledger : State.disk;
  calls : list NotionWriter.call;
  selected : list Episode;
  processed : list Episode
}.

(** A run that ends before any episode is processed. *)
Definition stopped (code : Z) (targets : list Episode) (files : Audio.fsys)
    (d : State.disk) : Outcome :=
  {| exit_code := code; final_fs := files; final_ledger := d; calls := [];
     selected := targets; processed := [] |}.

(** Lines 54 to 70 of [main]: nothing to do, a dry run, or the loop over
    the targets. *)
Definition process_targets (w : World) (a : Args) (config : Config.Config)
    (targets : list Episode) (s0 : Store) : Outcome :=
  match targets with
  | [] => stopped 0 [] (fs s0) (ledger_files s0)
  | _ =>
      if dry_run a then stopped 0 targets (fs s0) (ledger_files s0)
      else
        let s := foldl (_process_episode w config) s0 targets in
        {| exit_code := 0; final_fs := fs s; final_ledger := ledger_files s;
           calls := notion_calls s; selected := targets; processed := targets |}
  end.

(** [main] from line 34 on, with the configuration loaded. *)
Definition run (w : World) (a : Args) (config : Config.Config)
    (files : Audio.fsys) (d : State.disk) : Outcome :=
  let st := State.init State.STATE_FILE d in
  let s0 := {| fs := files; ledger_files := d; state := st; notion_calls := [] |} in
  let episodes :=
    Feed.parse_feed (now w) (feedparser_parse w (Config.rss_feed_url config)) in
  match episodes with
  | [] => stopped 0 [] files d
  | _ =>
      match select_targets a st episodes with
      | None => stopped 1 [] files d
      | Some targets => process_targets w a config targets s0
      end
  end.

(** [main] from the result of the [load_config] call on: a [ValueError]
    is reported and the process exits with 1; any other exception is not
    caught and ends the process with a traceback, exit code 1. *)
Definition main_from (loaded : result Config.Config) (w : World) (a : Args)
    (files : Audio.fsys) (d : State.disk) : Outcome :=
  match loaded with
  | Raise ValueError => stopped 1 [] files d
  | Raise _ => stopped 1 [] files d
  | Ok config => run w a config files d
  end.

(** [main]: the call of line 29 passes both overrides by keyword. *)
Definition main (w : World) (a : Args) (files : Audio.fsys) (d : State.disk)
    : Outcome :=
  main_from
    (Config.load_config (env w)
       [("feed_url_override", feed_url a);
        ("database_id_override", database_id a)]%string)
    w a files d.

End Main.

(* ===================================================================== *)
(** * Concrete inputs                                                      *)
(* ===================================================================== *)

Module Demo.
Import Models.

(** ** Audio *)

Definition codec : Audio.Codec :=
  {| Audio.can_decode := λ _, true; Audio.export_size := λ seg, Some 1000 |}.

Definition path : Audio.Path :=
  {| Audio.parent := lit "/tmp/podscriber"; Audio.name := lit "episode_1.mp3" |}.

(** A recording of three milliseconds in 30 MB, and a small file. *)
Definition big : Audio.file :=
  {| Audio.st_size := 30000000; Audio.frames := [11; 12; 13] |}.
Definition small : Audio.file :=
  {| Audio.st_size := 1000; Audio.frames := [11; 12; 13] |}.

Definition services (f : Audio.file) (with_pydub : bool) : Audio.Services :=
  {| Audio.http_get := λ _ _, Audio.HttpOk f;
     Audio.pydub := if with_pydub then Some codec else None |}.

(** ** The feed: entries C, A, B in this order, A the oldest. *)

Definition stamp (y : Z) : Feed.struct_time :=
  {| Feed.tm_year := y; Feed.tm_mon := 3; Feed.tm_mday := 14; Feed.tm_hour := 9;
     Feed.tm_min := 30; Feed.tm_sec := 0; Feed.tm_wday := 0; Feed.tm_yday := 73;
     Feed.tm_isdst := 0 |}.

Definition entry (t : string) (pp : option Feed.struct_time) (url : option string)
    : Feed.Entry :=
  {| Feed.e_title := Some (lit t);
     Feed.published_parsed := pp;
     Feed.summary := Some (lit "<p>notes</p>");
     Feed.enclosures :=
       match url with
       | Some u => [{| Feed.enc_type := Some (lit "audio/mpeg");
                       Feed.enc_href := Some (lit u); Feed.enc_url := None |}]
       | None => []
       end;
     Feed.links := [] |}.

Definition feed_CAB : Feed.ParsedFeed :=
  {| Feed.bozo := false; Feed.feed_title := Some (lit "Brew Talk");
     Feed.entries :=
       [entry "C" (Some (stamp 2023)) (Some "https://cdn.example/c.mp3");
        entry "A" (Some (stamp 2021)) (Some "https://cdn.example/a.mp3");
        entry "text only" (Some (stamp 2020)) None;
        entry "B" (Some (stamp 2022)) (Some "https://cdn.example/b.mp3")] |}.

(** An entry without a date, in front of a dated one. *)
Definition feed_undated : Feed.ParsedFeed :=
  {| Feed.bozo := false; Feed.feed_title := Some (lit "Brew Talk");
     Feed.entries :=
       [entry "D" (Some (stamp 2020)) (Some "https://cdn.example/d.mp3");
        entry "U" None (Some "https://cdn.example/u.mp3")] |}.

Definition clock : datetime :=
  {| year := 2026; month := 1; day := 5; hour := 12; minute := 0; second := 0 |}.

(** ** The collaborators *)

(** A tool input without [business_and_marketing]. *)
Definition partial_input : gmap str Extractor.json :=
  {[ lit "episode_summary" := Extractor.JStr (lit "About hops.");
     lit "brewing_techniques" := Extractor.JArr [Extractor.JStr (lit "Dry hopping")];
     lit "recipes" := Extractor.JArr [];
     lit "ingredients_and_products" := Extractor.JArr [];
     lit "key_takeaways" := Extractor.JArr [Extractor.JStr (lit "Keep it cold")] ]}.

Definition notion_ok : NotionWriter.Client :=
  {| NotionWriter.databases_update := λ _, Ok [lit "Name"; lit "Episode Number"];
     NotionWriter.pages_create :=
       λ _ _ _, Ok (lit "page-1", lit "https://notion.example/page-1");
     NotionWriter.blocks_children_append := λ _ _ _, Ok () |}.

Definition notion_down : NotionWriter.Client :=
  {| NotionWriter.databases_update := λ _, Raise NotionError;
     NotionWriter.pages_create := λ _ _ _, Raise NotionError;
     NotionWriter.blocks_children_append := λ _ _ _, Raise NotionError |}.

(** Insights that render to more than two batches of blocks, with a
    summary longer than the text limit. *)
Definition long_insights : BrewingInsights :=
  {| episode_summary := replicate 2500 97%N;
     brewing_techniques := [];
     recipes := [];
     ingredients_and_products := [];
     business_and_marketing := [];
     key_takeaways := replicate 250 (lit "Sanitize everything") |}.

Definition environ : Config.environ :=
  {[ lit "OPENAI_API_KEY" := lit "sk-o";
     lit "ANTHROPIC_API_KEY" := lit "sk-a";
     lit "NOTION_API_KEY" := lit "secret";
     lit "NOTION_DATABASE_ID" := lit "db";
     lit "RSS_FEED_URL" := lit "https://feed.example/rss" ]}.

Definition config : Config.Config :=
  {| Config.openai_api_key := lit "sk-o";
     Config.anthropic_api_key := lit "sk-a";
     Config.notion_api_key := lit "secret";
     Config.notion_database_id := lit "db";
     Config.rss_feed_url := lit "https://feed.example/rss";
     Config.temp_dir := lit "/tmp/podscriber" |}.

(** A world in which every collaborator answers; [f] is the file every
    download yields. *)
Definition world (f : Audio.file) (with_pydub : bool)
    (client : NotionWriter.Client) : Main.World :=
  {| Main.env := environ;
     Main.feedparser_parse := λ _, feed_CAB;
     Main.now := clock;
     Main.utcnow_isoformat := lit "2026-01-05T12:00:00";
     Main.audio_services := services f with_pydub;
     Main.whisper := λ _, Ok (lit "welcome to the show");
     Main.claude := λ _, Ok [Extractor.ToolUseBlock partial_input];
     Main.notion := client;
     Main.strip_episode_prefix := λ t, t |}.

Definition episode1 : Episode :=
  {| number := 1; title := lit "A"; published := clock;
     audio_url := lit "https://cdn.example/a.mp3";
     description := lit "notes"; podcast_name := lit "Brew Talk" |}.

Definition ledger_entry : State.LedgerEntry :=
  {| State.l_title := lit "A";
     State.l_notion_url := lit "https://notion.example/old";
     State.processed_at := lit "2025-12-01T08:00:00" |}.

(** A store without files; the ledger is empty, or records episode 1. *)
Definition store (doc : gmap str State.LedgerEntry) : Main.Store :=
  {| Main.fs := ∅;
     Main.ledger_files := {[ State.STATE_FILE := doc ]};
     Main.state := {| State.state_file := State.STATE_FILE; State._state := doc |};
     Main.notion_calls := [] |}.

(** Episodes 1 to 7, and a ledger that records 1, 2 and 4: the episodes
    not yet processed are 3, 5, 6 and 7. *)
Definition numbered (n : Z) : Episode :=
  {| number := n; title := lit "Episode"; published := clock;
     audio_url := lit "https://cdn.example/e.mp3";
     description := []; podcast_name := lit "Brew Talk" |}.

Definition seven : list Episode := numbered <$> seqZ 1 7.

Definition ledger_124 : State.StateManager :=
  {| State.state_file := State.STATE_FILE;
     State._state := {[ str_of_int 1 := ledger_entry;
                        str_of_int 2 := ledger_entry;
                        str_of_int 4 := ledger_entry ]} |}.

Definition args (e f n : option Z) : Main.Args :=
  {| Main.episode := e; Main.from_episode := f; Main.limit := n;
     Main.dry_run := false; Main.feed_url := None; Main.database_id := None |}.

End Demo.

(* ===================================================================== *)
(** * Predicates and further inputs                                        *)
(* ===================================================================== *)

Module Markup.

(** The tag pattern of [_strip_html] matches at the start of [s]: a [<],
    then at least one character before the first [>]. *)
Definition tag_here (s : str) : bool :=
  match s with
  | c :: s' =>
      bool_decide (c = 60%N)
      && match Feed.find_gt s' with
         | Some (S _) => true
         | _ => false
         end
  | [] => false
  end.

(** The pattern matches somewhere in [s]. *)
Fixpoint has_tag (s : str) : bool :=
  match s with
  | [] => false
  | _ :: s' => tag_here s || has_tag s'
  end.

(** The first and the last character of a text are not white space. *)
Definition trimmed (s : str) : bool :=
  negb (default false (Feed.isspace <$> head s))
  && negb (default false (Feed.isspace <$> last s)).

End Markup.

Module Ledger.
Import State.

(** A series of [mark_processed] calls on one manager: the number, the
    URL, the title and the clock reading of each. *)
Definition mark_each (sm : StateManager) (d : disk)
    (marks : list (Z * (str * str * str))) : StateManager * disk :=
  foldl (λ acc m, mark_processed acc.1 m.1 m.2.1.1 m.2.1.2 m.2.2 acc.2) (sm, d) marks.

End Ledger.

Module Layout.
Import NotionWriter.

(** The section headings of a page. *)
Definition is_heading2 (b : block) : bool :=
  match b with
  | heading_2 _ => true
  | _ => false
  end.

(** The names of the optional properties of [_build_properties]. *)
Definition optional_names : list str :=
  [lit "Episode Number"; lit "Published Date"; lit "Podcast Name";
   lit "Audio URL"; lit "Processed At"].

End Layout.

Module Response.
Import Extractor.

Definition is_text (b : ContentBlock) : bool :=
  match b with
  | TextBlock _ => true
  | ToolUseBlock _ => false
  end.

(** The keys [extract_insights] reads from the tool input. *)
Definition known_keys : list str :=
  [lit "recipes"; lit "episode_summary"; lit "brewing_techniques";
   lit "ingredients_and_products"; lit "business_and_marketing";
   lit "key_takeaways"].

End Response.

Module Isolation.
Import Models Main.

(** A store with no file, no ledger and no call made: an episode
    processed from it is processed on its own. *)
Definition clean_store : Store :=
  {| fs := ∅; ledger_files := ∅; state := State.init State.STATE_FILE ∅;
     notion_calls := [] |}.

(** The pipeline of [ep], run on its own, gets through publication and
    obtains [url]. *)
Definition succeeds_alone (w : World) (config : Config.Config) (ep : Episode)
    (url : str) : Prop :=
  publication_returned w ep config clean_store url.

(** The command line with the dry-run flag set or cleared. *)
Definition with_dry_run (a : Args) (flag : bool) : Args :=
  {| episode := episode a; from_episode := from_episode a; limit := limit a;
     dry_run := flag; feed_url := feed_url a; database_id := database_id a |}.

End Isolation.

Module Cases.
Import Models.

(** A server that breaks the connection twice, leaving part of the body,
    and answers the third request. *)
Definition flaky : Audio.Services :=
  {| Audio.http_get := λ _ attempt,
       if (attempt <? 3)%nat
       then Audio.HttpError ConnectionError (Some Demo.small)
       else Audio.HttpOk Demo.big;
     Audio.pydub := Some Demo.codec |}.

Definition url : str := lit "https://cdn.example/a.mp3?token=abc".
Definition temp_dir : str := lit "/tmp/podscriber".

(** Three chunk files, the third one too large for the transcription
    service, which refuses it. *)
Definition chunk (i : Z) : Audio.Path :=
  Audio.chunk_path {| Audio.parent := temp_dir; Audio.name := lit "episode_1" |} i.

Definition chunks : Audio.fsys :=
  {[ chunk 0 := Demo.small; chunk 1 := Demo.small; chunk 2 := Demo.big ]}.

Definition whisper_limit (f : Audio.file) : result str :=
  if Audio.st_size f <=? 25 * 1024 * 1024 then Ok (lit "welcome back")
  else Raise OpenAIError.

(** The feed of [Demo.feed_CAB] before entry C was published. *)
Definition feed_AB : Feed.ParsedFeed :=
  {| Feed.bozo := false; Feed.feed_title := Some (lit "Brew Talk");
     Feed.entries :=
       [Demo.entry "A" (Some (Demo.stamp 2021)) (Some "https://cdn.example/a.mp3");
        Demo.entry "text only" (Some (Demo.stamp 2020)) None;
        Demo.entry "B" (Some (Demo.stamp 2022)) (Some "https://cdn.example/b.mp3")] |}.

(** Entries C, U, A in this order, U without a date, A older than C. *)
Definition feed_CUA : Feed.ParsedFeed :=
  {| Feed.bozo := false; Feed.feed_title := Some (lit "Brew Talk");
     Feed.entries :=
       [Demo.entry "C" (Some (Demo.stamp 2023)) (Some "https://cdn.example/c.mp3");
        Demo.entry "U" None (Some "https://cdn.example/u.mp3");
        Demo.entry "A" (Some (Demo.stamp 2021)) (Some "https://cdn.example/a.mp3")] |}.

(** A feed listed oldest first, two of its entries published at the
    same second. *)
Definition feed_ties : Feed.ParsedFeed :=
  {| Feed.bozo := false; Feed.feed_title := None;
     Feed.entries :=
       [Demo.entry "A" (Some (Demo.stamp 2021)) (Some "https://cdn.example/a.mp3");
        Demo.entry "B, part 1" (Some (Demo.stamp 2022)) (Some "https://cdn.example/b1.mp3");
        Demo.entry "B, part 2" (Some (Demo.stamp 2022)) (Some "https://cdn.example/b2.mp3")] |}.

(** A publication service whose schema update fails (the integration may
    not edit the database) while pages can be created. *)
Definition notion_no_schema : NotionWriter.Client :=
  {| NotionWriter.databases_update := λ _, Raise NotionError;
     NotionWriter.pages_create :=
       λ _ _ _, Ok (lit "page-1", lit "https://notion.example/page-1");
     NotionWriter.blocks_children_append := λ _ _ _, Ok () |}.

(** A response that opens with a text block and carries two tool-use
    blocks. *)
Definition chatty (message : str) : result (list Extractor.ContentBlock) :=
  Ok [Extractor.TextBlock (lit "Here are the insights.");
      Extractor.ToolUseBlock Demo.partial_input;
      Extractor.ToolUseBlock ∅].

(** A tool input whose second recipe has no name. *)
Definition nameless_recipe : gmap str Extractor.json :=
  {[ lit "episode_summary" := Extractor.JStr (lit "About hops.");
     lit "recipes" :=
       Extractor.JArr
         [Extractor.JObj {[ lit "name" := Extractor.JStr (lit "House IPA") ]};
          Extractor.JObj {[ lit "style" := Extractor.JStr (lit "Stout") ]}] ]}.

(** A temporary directory that holds a file of somebody else. *)
Definition notes : Audio.Path :=
  {| Audio.parent := temp_dir; Audio.name := lit "notes.txt" |}.

Definition store_with_notes : Main.Store :=
  {| Main.fs := {[ notes := Demo.small ]};
     Main.ledger_files := ∅;
     Main.state := State.init State.STATE_FILE ∅;
     Main.notion_calls := [] |}.

End Cases.

(* ===================================================================== *)
(** * Facts about the Python fragments                                     *)
(* ===================================================================== *)

Module PyFacts.

Lemma ceil_div_bounds (a b : Z) :
  0 < b → (ceil_div a b - 1) * b < a ∧ a ≤ ceil_div a b * b.
Proof.
  intros Hb. unfold ceil_div.
  pose proof (Z.div_mod (a + b - 1) b ltac:(lia)) as Hdm.
  pose proof (Z.mod_pos_bound (a + b - 1) b Hb) as Hm.
  nia.
Qed.

Lemma ceil_div_nonneg (a b : Z) : 0 ≤ a → 0 < b → 0 ≤ ceil_div a b.
Proof. intros Ha Hb. unfold ceil_div. apply Z.div_pos; lia. Qed.

Lemma slice_window {A} (l : list A) (a b : Z) :
  0 ≤ a → 0 ≤ b →
  slice l (Some a) (Some (a + b)) = take (Z.to_nat b) (drop (Z.to_nat a) l).
Proof.
  intros Ha Hb. unfold slice, clip; simpl.
  destruct (Z.ltb_spec a 0) as [|_]; [lia|].
  destruct (Z.ltb_spec (a + b) 0) as [|_]; [lia|].
  destruct (Z_le_gt_dec (Z.of_nat (length l)) a) as [Hge|Hlt].
  - rewrite !drop_ge by lia. by rewrite !take_nil.
  - rewrite (Z.min_l a (Z.of_nat _)) by lia.
    destruct (Z_le_gt_dec (a + b) (Z.of_nat (length l))) as [Hin|Hout].
    + rewrite Z.min_l by lia. by replace (a + b - a) with b by lia.
    + rewrite Z.min_r by lia.
      rewrite !take_ge; [done | rewrite length_drop; lia | rewrite length_drop; lia].
Qed.



Lemma zip_fmap_diag {A B} (f : A → B) (l : list A) :
  zip l (f <$> l) = (λ x, (x, f x)) <$> l.
Proof. induction l as [|x l IH]; csimpl; [done | by rewrite IH]. Qed.

(** [enumerate(range(0, stop, step))] pairs every index [i] below the
    length of the range with the offset [i * step]. *)
Lemma enumerate_range (stop step : Z) :
  enumerate 0 (range 0 stop step)
  = (λ i, (i, i * step)) <$> seqZ 0 (range_len 0 stop step).
Proof.
  unfold enumerate, range.
  rewrite length_fmap, length_seqZ.
  rewrite Z2Nat.id by (unfold range_len; lia).
  rewrite zip_fmap_diag. apply list_fmap_ext. intros _ i _. simpl. f_equal.
Qed.

(** Consecutive windows of width [c] rebuild the prefix they cover. *)
Lemma windows_concat {A} (l : list A) (c n : nat) :
  mjoin ((λ i : nat, take c (drop (i * c) l)) <$> seq 0 n) = take (n * c) l.
Proof.
  induction n as [|n IH].
  - by rewrite take_0.
  - rewrite seq_S, fmap_app, join_app, IH. simpl. rewrite app_nil_r.
    rewrite take_take_drop. f_equal. lia.
Qed.



Lemma unlit_lit (s : string) : unlit (lit s) = s.
Proof.
  unfold unlit, lit. rewrite <- list_fmap_compose.
  rewrite (list_fmap_ext _ id (list_ascii_of_string s)).
  - rewrite list_fmap_id. apply string_of_list_ascii_of_string.
  - intros _ a _. simpl. apply ascii_N_embedding.
Qed.

Lemma unlit_zeros (k : nat) (s : str) :
  NilEmpty.uint_of_string (unlit (replicate k 48%N ++ s))
  = Nat.iter k (option_map Decimal.D0) (NilEmpty.uint_of_string (unlit s)).
Proof.
  induction k as [|k IH]; [done|].
  change (unlit (replicate (S k) 48%N ++ s))
    with (String "0" (unlit (replicate k 48%N ++ s))).
  simpl. rewrite IH.
  by destruct (Nat.iter k _ _).
Qed.

Lemma of_uint_zeros (k : nat) (o : option Decimal.uint) :
  from_option Z.of_uint 0 (Nat.iter k (option_map Decimal.D0) o)
  = from_option Z.of_uint 0 o.
Proof.
  induction k as [|k IH]; [done|]. simpl.
  destruct (Nat.iter k _ _) as [d|]; simpl in *; [|done].
  rewrite <- IH. reflexivity.
Qed.

Lemma parse_nonneg (z : Z) :
  0 ≤ z →
  from_option Z.of_uint 0
    (NilEmpty.uint_of_string (NilZero.string_of_int (Z.to_int z))) = z.
Proof.
  intros Hz. pose proof (DecimalZ.of_to z) as Hof.
  destruct z as [|p|p]; [done| |lia].
  simpl in *. unfold NilZero.string_of_uint.
  destruct (Pos.to_uint p) eqn:E; try (rewrite NilEmpty.usu; exact Hof).
  exact Hof.
Qed.

(** Zero padding does not lose the number: [parse_decimal] reads it back. *)
Lemma parse_rjust0 (w : nat) (z : Z) :
  0 ≤ z → parse_decimal (rjust0 w (str_of_int z)) = z.
Proof.
  intros Hz. unfold parse_decimal, rjust0.
  change (match ?o with Some d => Z.of_uint d | None => 0 end)
    with (from_option Z.of_uint 0 o).
  rewrite unlit_zeros, of_uint_zeros. unfold str_of_int.
  rewrite unlit_lit. by apply parse_nonneg.
Qed.

Lemma fmt_03d_inj (i j : Z) : 0 ≤ i → 0 ≤ j → fmt_03d i = fmt_03d j → i = j.
Proof.
  intros Hi Hj Heq. rewrite <- (parse_rjust0 3 i Hi), <- (parse_rjust0 3 j Hj).
  unfold fmt_03d in Heq. by rewrite Heq.
Qed.

End PyFacts.

(* ===================================================================== *)
(** * audio.py: splitting and cleanup                                      *)
(* ===================================================================== *)

Module AudioFacts.
Import Audio PyFacts.

Lemma rfind_lookup (c : N) (s : str) (i : nat) :
  rfind c s = Some i → s !! i = Some c.
Proof.
  revert i. induction s as [|x s IH]; intros i; simpl; [done|].
  destruct (rfind c s) as [j|].
  - intros [= <-]. simpl. by apply IH.
  - destruct (decide (x = c)) as [->|]; [|done]. by intros [= <-].
Qed.

(** A suffix is empty or starts with a dot. *)
Lemma suffix_shape (nm : str) : suffix nm = [] ∨ ∃ t, suffix nm = dot :: t.
Proof.
  unfold suffix. destruct (rfind dot nm) as [i|] eqn:E; [|by left].
  destruct (_ && _); [|by left].
  right. apply rfind_lookup in E.
  rewrite (drop_S _ _ _ E). eauto.
Qed.

Lemma stem_suffix (nm : str) : stem nm ++ suffix nm = nm.
Proof.
  unfold stem, suffix. destruct (rfind dot nm) as [i|] eqn:E.
  - destruct (bool_decide (0 < i)%nat && bool_decide (i < length nm - 1)%nat) eqn:B.
    + apply andb_true_iff in B as [_ B]. apply bool_decide_eq_true in B.
      rewrite length_drop.
      replace (length nm - (length nm - i))%nat with i by lia.
      apply take_drop.
    + simpl. rewrite Nat.sub_0_r, take_ge by lia. apply app_nil_r.
  - simpl. rewrite Nat.sub_0_r, take_ge by lia. apply app_nil_r.
Qed.

(** No chunk is written over the file that is being split. *)
Lemma chunk_path_fresh (p base : Path) (i : Z) :
  with_suffix_empty p = Ok base → chunk_path base i ≠ p.
Proof.
  unfold with_suffix_empty. destruct p as [dir nm]; simpl.
  intros Hbase.
  assert (base = {| parent := dir; name := stem nm |}) as ->
    by (destruct nm; [done | by injection Hbase]).
  intros Hname. apply (f_equal name) in Hname.
  cbn [name chunk_path] in Hname.
  rewrite <- (stem_suffix nm) in Hname at 2.
  apply app_inv_head in Hname.
  destruct (suffix_shape nm) as [Hs|[t Hs]]; rewrite Hs in Hname; discriminate.
Qed.

Lemma chunk_path_inj (base : Path) (i j : Z) :
  0 ≤ i → 0 ≤ j → chunk_path base i = chunk_path base j → i = j.
Proof.
  intros Hi Hj Hname. apply (f_equal name) in Hname.
  cbn [name chunk_path] in Hname.
  do 2 apply app_inv_head in Hname.
  apply app_inv_tail in Hname. by apply fmt_03d_inj.
Qed.

Section export.
Context (cd : Codec) (audio : list Z) (base : Path).

Lemma export_chunks_paths starts acc fs chunks fs' :
  export_chunks cd audio base starts acc fs = (Ok chunks, fs') →
  chunks = acc ++ ((λ x, chunk_path base x.1) <$> starts).
Proof.
  revert acc fs. induction starts as [|[i start] rest IH]; intros acc fs; simpl.
  - intros [= <- <-]. by rewrite app_nil_r.
  - destruct (export_size cd _) as [sz|]; [|done].
    intros H. apply IH in H. rewrite H. by rewrite <- app_assoc.
Qed.

Lemma export_chunks_frame starts acc fs chunks fs' q :
  export_chunks cd audio base starts acc fs = (Ok chunks, fs') →
  q ∉ ((λ x, chunk_path base x.1) <$> starts) →
  fs' !! q = fs !! q.
Proof.
  revert acc fs. induction starts as [|[i start] rest IH]; intros acc fs; simpl.
  - by intros [= <- <-].
  - destruct (export_size cd _) as [sz|]; [|done].
    intros H Hq. apply not_elem_of_cons in Hq as [Hne Hq].
    rewrite (IH _ _ H Hq). by rewrite lookup_insert_ne.
Qed.

Lemma export_chunks_written starts acc fs chunks fs' i start :
  export_chunks cd audio base starts acc fs = (Ok chunks, fs') →
  NoDup ((λ x, chunk_path base x.1) <$> starts) →
  (i, start) ∈ starts →
  ∃ sz, fs' !! chunk_path base i
        = Some {| st_size := sz;
                  frames := slice audio (Some start) (Some (start + chunk_ms)) |}.
Proof.
  revert acc fs. induction starts as [|[j st] rest IH]; intros acc fs; simpl.
  - intros _ _ Hin. by apply elem_of_nil in Hin.
  - destruct (export_size cd _) as [sz|] eqn:E; [|done].
    intros H Hnd Hin. apply NoDup_cons in Hnd as [Hfresh Hnd].
    apply elem_of_cons in Hin as [[= -> ->]|Hin].
    + exists sz. rewrite (export_chunks_frame _ _ _ _ _ _ H Hfresh).
      by rewrite lookup_insert_eq.
    + by eapply IH.
Qed.

Lemma export_chunks_succeeds starts acc fs :
  (∀ seg, is_Some (export_size cd seg)) →
  ∃ chunks fs', export_chunks cd audio base starts acc fs = (Ok chunks, fs').
Proof.
  intros Hexp. revert acc fs.
  induction starts as [|[i start] rest IH]; intros acc fs; simpl; [eauto|].
  destruct (Hexp (slice audio (Some start) (Some (start + chunk_ms)))) as [sz ->].
  apply IH.
Qed.
End export.

End AudioFacts.

Module AudioSplit.
Import Audio PyFacts AudioFacts.

Lemma omap_indexed {A B} (h : A → option B) (F : nat → B) (l : list A) (k : nat) :
  (∀ i c, l !! i = Some c → h c = Some (F (k + i)%nat)) →
  omap h l = F <$> seq k (length l).
Proof.
  revert k. induction l as [|x l IH]; intros k Hl; [done|].
  simpl. rewrite (Hl 0%nat x eq_refl), Nat.add_0_r. f_equal.
  apply IH. intros i c Hi. rewrite (Hl (S i) c Hi). f_equal. f_equal. lia.
Qed.

(** The paths [split_audio_if_needed] returns for an oversized file. *)
Lemma chunk_paths_seqZ (base : Path) (len : Z) :
  (λ x : Z * Z, chunk_path base x.1) <$> enumerate 0 (range 0 len chunk_ms)
  = chunk_path base <$> seqZ 0 (range_len 0 len chunk_ms).
Proof. rewrite enumerate_range, <- list_fmap_compose. done. Qed.

Lemma chunk_paths_NoDup (base : Path) (n : Z) :
  NoDup (chunk_path base <$> seqZ 0 n).
Proof.
  apply NoDup_fmap_2_strong; [|apply NoDup_seqZ].
  intros i j Hi Hj. apply elem_of_seqZ in Hi, Hj.
  apply chunk_path_inj; lia.
Qed.

Lemma range_len_chunks (len : nat) :
  range_len 0 (Z.of_nat len) chunk_ms = ceil_div (Z.of_nat len) chunk_ms.
Proof.
  unfold range_len. rewrite Z.sub_0_r. apply Z.max_r.
  apply ceil_div_nonneg; [lia | done].
Qed.

(** What a successful split of an oversized file leaves behind. *)
Lemma split_oversized (sv : Services) (p : Path) (f : file) (fs : fsys)
    (chunks : list Path) (fs' : fsys) :
  fs !! p = Some f →
  WHISPER_MAX_BYTES < st_size f →
  split_audio_if_needed sv p fs = (Ok chunks, fs') →
  ∃ base fs1,
    with_suffix_empty p = Ok base ∧
    chunks = chunk_path base
               <$> seqZ 0 (ceil_div (Z.of_nat (length (frames f))) chunk_ms) ∧
    fs' = delete p fs1 ∧
    (∀ q, q ∉ chunks → fs1 !! q = fs !! q) ∧
    (∀ i : nat, Z.of_nat i < ceil_div (Z.of_nat (length (frames f))) chunk_ms →
       ∃ sz, fs1 !! chunk_path base (Z.of_nat i)
             = Some {| st_size := sz;
                       frames := take (Z.to_nat chunk_ms)
                                   (drop (i * Z.to_nat chunk_ms) (frames f)) |}).
Proof.
  intros Hf Hbig. unfold split_audio_if_needed. rewrite Hf.
  destruct (Z.leb_spec (st_size f) WHISPER_MAX_BYTES) as [|_]; [lia|].
  destruct (pydub sv) as [cd|]; [|done].
  destruct (can_decode cd f); [|done].
  destruct (with_suffix_empty p) as [base|] eqn:Hbase; [|done].
  destruct (export_chunks _ _ _ _ _ _) as [[chunks0|e] fs1] eqn:Hexp; [|done].
  destruct (fs1 !! p) eqn:Hp; [|done]. intros [= <- <-].
  pose proof (export_chunks_paths _ _ _ _ _ _ _ _ Hexp) as Hpaths.
  rewrite app_nil_l, chunk_paths_seqZ, range_len_chunks in Hpaths.
  exists base, fs1. split; [done|]. split; [done|]. split; [done|]. split.
  - intros q Hq. eapply export_chunks_frame; [exact Hexp|].
    by rewrite chunk_paths_seqZ, range_len_chunks, <- Hpaths.
  - intros i Hi.
    destruct (export_chunks_written cd (frames f) base _ _ _ _ _
                (Z.of_nat i) (Z.of_nat i * chunk_ms) Hexp) as [sz Hsz].
    + rewrite chunk_paths_seqZ. apply chunk_paths_NoDup.
    + rewrite enumerate_range, range_len_chunks.
      apply list_elem_of_fmap. exists (Z.of_nat i). split; [done|].
      apply elem_of_seqZ. lia.
    + exists sz. rewrite Hsz. do 2 f_equal.
      rewrite slice_window by (unfold chunk_ms; lia).
      do 2 f_equal. unfold chunk_ms. lia.
Qed.

Lemma split_oversized_succeeds (sv : Services) (cd : Codec) (p : Path) (f : file)
    (fs : fsys) :
  fs !! p = Some f →
  WHISPER_MAX_BYTES < st_size f →
  pydub sv = Some cd →
  can_decode cd f = true →
  (∀ seg, is_Some (export_size cd seg)) →
  name p ≠ [] →
  ∃ chunks fs', split_audio_if_needed sv p fs = (Ok chunks, fs').
Proof.
  intros Hf Hbig Hpy Hdec Hexp Hname. unfold split_audio_if_needed.
  rewrite Hf, Hpy, Hdec.
  destruct (Z.leb_spec (st_size f) WHISPER_MAX_BYTES) as [|_]; [lia|].
  destruct (with_suffix_empty p) as [base|] eqn:Hbase.
  2: { unfold with_suffix_empty in Hbase. by destruct (name p). }
  destruct (export_chunks_succeeds cd (frames f) base
              (enumerate 0 (range 0 (Z.of_nat (length (frames f))) chunk_ms))
              [] fs Hexp) as (chunks & fs1 & Hrun).
  rewrite Hrun.
  assert (fs1 !! p = Some f) as ->; [|eauto].
  rewrite <- Hf. eapply export_chunks_frame; [exact Hrun|].
  intros Hin. apply list_elem_of_fmap in Hin as ([i start] & Hp & _).
  symmetry in Hp. by apply chunk_path_fresh in Hp.
Qed.

(** C4.  A file of at most 24 MB is returned as the single chunk, and
    nothing on disk changes.  For a file over 24 MB: with a codec that
    decodes the file and exports every segment, splitting returns; and
    whenever it returns, the chunk paths number
    ceil(duration / 10 minutes) and are pairwise distinct, the i-th chunk
    file holds the i-th window of 10 minutes of the original audio (so at
    most 10 minutes), the chunk files read in the returned order
    concatenate to the original audio, and the original file is gone. *)
Theorem split_audio_if_needed_chunks (sv : Services) (p : Path) (f : file)
    (fs : fsys) :
  fs !! p = Some f →
  (st_size f ≤ 24 * 1024 * 1024 →
     split_audio_if_needed sv p fs = (Ok [p], fs)) ∧
  (24 * 1024 * 1024 < st_size f →
     (∀ cd, pydub sv = Some cd → can_decode cd f = true →
            (∀ seg, is_Some (export_size cd seg)) → name p ≠ [] →
            ∃ chunks fs', split_audio_if_needed sv p fs = (Ok chunks, fs')) ∧
     (∀ chunks fs', split_audio_if_needed sv p fs = (Ok chunks, fs') →
        let ten_minutes := Z.to_nat (10 * 60 * 1000) in
        Z.of_nat (length chunks)
          = ceil_div (Z.of_nat (length (frames f))) (10 * 60 * 1000) ∧
        NoDup chunks ∧
        (∀ (i : nat) (c : Path), chunks !! i = Some c →
           ∃ g, fs' !! c = Some g ∧
                frames g = take ten_minutes (drop (i * ten_minutes) (frames f)) ∧
                (length (frames g) ≤ ten_minutes)%nat) ∧
        mjoin (omap (λ c, frames <$> fs' !! c) chunks) = frames f ∧
        fs' !! p = None)).
Proof.
  intros Hf. split.
  - intros Hsmall. unfold split_audio_if_needed. rewrite Hf.
    destruct (Z.leb_spec (st_size f) WHISPER_MAX_BYTES) as [_|Hgt]; [done|].
    unfold WHISPER_MAX_BYTES in Hgt. lia.
  - intros Hbig. split.
    { intros cd Hpy Hdec Hexp Hname.
      by apply (split_oversized_succeeds sv cd p f fs). }
    intros chunks fs' Hrun ten_minutes.
    destruct (split_oversized sv p f fs chunks fs' Hf Hbig Hrun)
      as (base & fs1 & Hbase & -> & -> & Hframe & Hwritten).
    change (10 * 60 * 1000) with chunk_ms in *.
    set (n := ceil_div (Z.of_nat (length (frames f))) chunk_ms) in *.
    assert (0 ≤ n) as Hn by (apply ceil_div_nonneg; [lia | done]).
    assert (∀ (i : nat) (c : Path),
              (chunk_path base <$> seqZ 0 n) !! i = Some c →
              ∃ g, delete p fs1 !! c = Some g ∧
                   frames g = take ten_minutes (drop (i * ten_minutes) (frames f)))
      as Hchunk.
    { intros i c Hi. rewrite list_lookup_fmap in Hi.
      destruct (seqZ 0 n !! i) as [z|] eqn:Hz; [|done].
      apply lookup_seqZ in Hz as [-> Hlt]. simpl in Hi.
      injection Hi as <-. rewrite Z.add_0_l.
      destruct (Hwritten i Hlt) as [sz Hsz].
      exists {| st_size := sz;
                frames := take ten_minutes (drop (i * ten_minutes) (frames f)) |}.
      split; [|done].
      rewrite lookup_delete_ne; [exact Hsz|].
      intros Heq. symmetry in Heq. by apply chunk_path_fresh in Heq. }
    split; [by rewrite length_fmap, length_seqZ, Z2Nat.id|].
    split; [apply chunk_paths_NoDup|].
    split.
    { intros i c Hi. destruct (Hchunk i c Hi) as (g & Hg & Hfr).
      exists g. split; [done|]. split; [done|].
      rewrite Hfr, length_take. lia. }
    split; [|apply lookup_delete_eq].
    rewrite (omap_indexed _
               (λ i, take ten_minutes (drop (i * ten_minutes) (frames f))) _ 0).
    + rewrite windows_concat, length_fmap, length_seqZ. apply take_ge.
      destruct (ceil_div_bounds (Z.of_nat (length (frames f))) chunk_ms) as [_ Hup];
        [done|].
      fold n in Hup. subst ten_minutes. unfold chunk_ms in *. nia.
    + intros i c Hi. destruct (Hchunk i c Hi) as (g & -> & Hfr).
      simpl. by rewrite Hfr.
Qed.

(** An hour of audio in an oversized file comes out as six chunks. *)
Example sixty_minutes_six_chunks (sv : Services) (p : Path) (f : file)
    (fs : fsys) (chunks : list Path) (fs' : fsys) :
  fs !! p = Some f →
  WHISPER_MAX_BYTES < st_size f →
  Z.of_nat (length (frames f)) = 60 * 60 * 1000 →
  split_audio_if_needed sv p fs = (Ok chunks, fs') →
  length chunks = 6%nat.
Proof.
  intros Hf Hbig Hhour Hrun.
  destruct (split_oversized sv p f fs chunks fs' Hf Hbig Hrun)
    as (base & fs1 & _ & -> & _).
  rewrite length_fmap, length_seqZ, Hhour. reflexivity.
Qed.

(** A small file and an oversized one, with a codec that always works. *)
Lemma split_audio_if_needed_chunks_witness :
  (({[Demo.path := Demo.small]} : fsys) !! Demo.path = Some Demo.small ∧
   split_audio_if_needed (Demo.services Demo.small true) Demo.path
     {[Demo.path := Demo.small]}
   = (Ok [Demo.path], {[Demo.path := Demo.small]})) ∧
  (({[Demo.path := Demo.big]} : fsys) !! Demo.path = Some Demo.big ∧
   ∃ chunks fs',
     split_audio_if_needed (Demo.services Demo.big true) Demo.path
       {[Demo.path := Demo.big]} = (Ok chunks, fs')).
Proof.
  split; (split; [apply lookup_singleton_eq|]).
  - apply (split_audio_if_needed_chunks _ Demo.path Demo.small).
    + apply lookup_singleton_eq.
    + vm_compute. discriminate.
  - destruct (split_audio_if_needed_chunks (Demo.services Demo.big true)
                Demo.path Demo.big _ (lookup_singleton_eq _ _)) as [_ Hbig].
    destruct Hbig as [Hreturns _]; [reflexivity|].
    apply (Hreturns Demo.codec); [reflexivity | reflexivity | | discriminate].
    intros seg. by exists 1000.
Defined.

End AudioSplit.

(* ===================================================================== *)
(** * main.py: one episode                                                 *)
(* ===================================================================== *)

Module ProcessFacts.
Import Models Main.

Lemma cleanup_audio_lookup (paths : list Audio.Path) (files : Audio.fsys)
    (q : Audio.Path) :
  Audio.cleanup_audio paths files !! q
  = if decide (q ∈ paths) then None else files !! q.
Proof.
  unfold Audio.cleanup_audio. revert files.
  induction paths as [|p paths IH]; intros files; simpl.
  - destruct (decide (q ∈ [])) as [H|]; [by apply elem_of_nil in H | done].
  - rewrite IH.
    destruct (decide (q ∈ paths)) as [Hin|Hout];
      destruct (decide (q ∈ p :: paths)) as [Hc|Hc]; [done| | |].
    + exfalso. apply Hc, elem_of_cons. by right.
    + apply elem_of_cons in Hc as [->|?]; [apply lookup_delete_eq | done].
    + apply lookup_delete_ne. intros ->. apply Hc, elem_of_cons. by left.
Qed.

(** A download that returns has written the file it names. *)
Lemma download_attempts_written sv url dest attempts files p files' :
  Audio.download_attempts sv url dest attempts files = (Ok p, files') →
  p = dest ∧ is_Some (files' !! dest).
Proof.
  revert files. induction attempts as [|k rest IH]; intros files;
    cbn [Audio.download_attempts]; [done|].
  destruct (Audio.http_get sv url k) as [f|e partial].
  - intros [= <- <-]. split; [done|]. rewrite lookup_insert_eq. eauto.
  - destruct (Audio.retried e) as [[|]|raised]; [|done|done].
    destruct (decide (k = Audio._DOWNLOAD_RETRIES)); [done|]. apply IH.
Qed.

(** How the [try] block is left: with the URL publication returned, or
    with the exception of the first stage that raised. *)
Lemma try_block_stages (w : World) (ep : Episode) (config : Config.Config)
    (s : Store) (url : str) :
  (try_block w ep config s).1.2 = Ok url ↔ publication_returned w ep config s url.
Proof.
  unfold try_block, publication_returned.
  destruct (Audio.download_audio _ _ _ _ _) as [[raw_path|e] fs1] eqn:Hd.
  2: { split; [done|]. by intros (? & ? & ? & ? & ? & ? & ? & [=] & _). }
  destruct (Audio.split_audio_if_needed _ _ _) as [[audio_paths|e] fs2] eqn:Hs.
  2: { split; [done|]. intros (? & ? & ? & ? & ? & ? & ? & [= <- <-] & H & _).
       by rewrite Hs in H. }
  destruct (Transcriber.transcribe _ _ _) as [transcript|e] eqn:Ht.
  2: { split; [done|].
       intros (? & ? & ? & ? & ? & ? & ? & [= <- <-] & H1 & H2 & _).
       rewrite Hs in H1. injection H1 as <- <-. by rewrite Ht in H2. }
  destruct (Extractor.extract_insights _ _ _ _) as [insights|e] eqn:He.
  2: { split; [done|].
       intros (? & ? & ? & ? & ? & ? & ? & [= <- <-] & H1 & H2 & H3 & _).
       rewrite Hs in H1. injection H1 as <- <-.
       rewrite Ht in H2. injection H2 as <-. by rewrite He in H3. }
  destruct (NotionWriter.create_episode_page _ _ _ _ _ _) as [[u|e] calls] eqn:Hp.
  - simpl. split.
    + intros [= ->]. by exists raw_path, fs1, audio_paths, fs2, transcript, insights, calls.
    + intros (? & ? & ? & ? & ? & ? & ? & [= <- <-] & H1 & H2 & H3 & H4).
      rewrite Hs in H1. injection H1 as <- <-.
      rewrite Ht in H2. injection H2 as <-.
      rewrite He in H3. injection H3 as <-.
      rewrite Hp in H4. by injection H4 as <- _.
  - split; [done|].
    intros (? & ? & ? & ? & ? & ? & ? & [= <- <-] & H1 & H2 & H3 & H4).
    rewrite Hs in H1. injection H1 as <- <-.
    rewrite Ht in H2. injection H2 as <-.
    rewrite He in H3. injection H3 as <-.
    rewrite Hp in H4. by injection H4.
Qed.

(** The ledger after the [try] block: marked when the block ended with a
    URL, untouched when it ended with an exception. *)
Lemma try_block_ledger (w : World) (ep : Episode) (config : Config.Config)
    (s : Store) :
  let '(_, r, s') := try_block w ep config s in
  match r with
  | Ok url =>
      (state s', ledger_files s')
      = State.mark_processed (state s) (number ep) url (title ep)
          (utcnow_isoformat w) (ledger_files s)
  | Raise _ => state s' = state s ∧ ledger_files s' = ledger_files s
  end.
Proof.
  unfold try_block.
  destruct (Audio.download_audio _ _ _ _ _) as [[raw_path|e] fs1]; [|done].
  destruct (Audio.split_audio_if_needed _ _ _) as [[audio_paths|e] fs2]; [|done].
  destruct (Transcriber.transcribe _ _ _) as [transcript|e]; [|done].
  destruct (Extractor.extract_insights _ _ _ _) as [insights|e]; [|done].
  destruct (NotionWriter.create_episode_page _ _ _ _ _ _) as [[u|e] calls]; [|done].
  by unfold State.mark_processed.
Qed.

(** The [finally] clause touches the audio files only. *)
Lemma process_episode_ledger_of_try (w : World) (ep : Episode)
    (config : Config.Config) (s : Store) :
  state (_process_episode w config s ep) = state (try_block w ep config s).2 ∧
  ledger_files (_process_episode w config s ep)
  = ledger_files (try_block w ep config s).2 ∧
  notion_calls (_process_episode w config s ep)
  = notion_calls (try_block w ep config s).2.
Proof.
  unfold _process_episode.
  destruct (try_block w ep config s) as [[paths r] s'].
  by destruct paths.
Qed.

End ProcessFacts.

Module ProcessEpisode.
Import Models Main ProcessFacts.

(** A split that returned either handed back the file itself, untouched,
    or removed it. *)
Lemma split_returns (sv : Audio.Services) (p : Audio.Path) (files : Audio.fsys)
    (paths : list Audio.Path) (files' : Audio.fsys) :
  Audio.split_audio_if_needed sv p files = (Ok paths, files') →
  (paths = [p] ∧ files' = files) ∨ files' !! p = None.
Proof.
  unfold Audio.split_audio_if_needed.
  destruct (files !! p) as [f|]; [|done].
  destruct (Audio.st_size f <=? Audio.WHISPER_MAX_BYTES).
  { intros [= <- <-]. by left. }
  destruct (Audio.pydub sv) as [cd|]; [|done].
  destruct (Audio.can_decode cd f); [|done].
  destruct (Audio.with_suffix_empty p) as [base|]; [|done].
  destruct (Audio.export_chunks _ _ _ _ _ _) as [[chunks|e] fs1]; [|done].
  destruct (fs1 !! p); [|done].
  intros [= <- <-]. right. apply lookup_delete_eq.
Qed.

(** Once download and split have returned, the [try] block ends with
    [audio_paths] bound to the chunks and the files as the split left
    them. *)
Lemma try_block_after_split (w : World) (ep : Episode) (config : Config.Config)
    (s : Store) raw_path fs1 audio_paths fs2 :
  Audio.download_audio (audio_services w) (audio_url ep)
    (Config.temp_dir config) (number ep) (fs s) = (Ok raw_path, fs1) →
  Audio.split_audio_if_needed (audio_services w) raw_path fs1
    = (Ok audio_paths, fs2) →
  (try_block w ep config s).1.1 = audio_paths ∧
  fs (try_block w ep config s).2 = fs2.
Proof.
  intros Hd Hs. unfold try_block. rewrite Hd, Hs.
  destruct (Transcriber.transcribe _ _ _) as [transcript|e]; [|done].
  destruct (Extractor.extract_insights _ _ _ _) as [insights|e]; [|done].
  destruct (NotionWriter.create_episode_page _ _ _ _ _ _) as [[u|e] calls]; [|done].
  by unfold State.mark_processed.
Qed.

(** Whatever happens after the split has returned (transcription,
    extraction or publication failing, or all of them succeeding), neither
    the downloaded file nor a chunk file is left. *)
Lemma process_episode_cleans_after_split (w : World) (ep : Episode)
    (config : Config.Config) (s : Store) raw_path fs1 audio_paths fs2 :
  Audio.download_audio (audio_services w) (audio_url ep)
    (Config.temp_dir config) (number ep) (fs s) = (Ok raw_path, fs1) →
  Audio.split_audio_if_needed (audio_services w) raw_path fs1
    = (Ok audio_paths, fs2) →
  fs (_process_episode w config s ep) !! raw_path = None ∧
  ∀ p, p ∈ audio_paths → fs (_process_episode w config s ep) !! p = None.
Proof.
  intros Hd Hs.
  destruct (try_block_after_split w ep config s _ _ _ _ Hd Hs) as [Hpaths Hfs].
  unfold _process_episode.
  destruct (try_block w ep config s) as [[paths r] s']. simpl in Hpaths, Hfs.
  subst paths.
  destruct (split_returns _ _ _ _ _ Hs) as [[-> ->]|Hgone].
  - cbn [fs]. split.
    + rewrite cleanup_audio_lookup, decide_True; [done|]. apply elem_of_cons. by left.
    + intros p Hp. by rewrite cleanup_audio_lookup, decide_True.
  - destruct audio_paths as [|a rest].
    + split; [by rewrite Hfs|]. intros p Hp. by apply elem_of_nil in Hp.
    + cbn [fs]. split.
      * rewrite cleanup_audio_lookup, Hfs, Hgone. by destruct (decide _).
      * intros p Hp. by rewrite cleanup_audio_lookup, decide_True.
Qed.

(** C1.  The download of episode 1 succeeds with a file of 30 MB and
    pydub cannot be imported: the split raises, [audio_paths] is still
    empty in the [finally] clause, and the downloaded file stays on
    disk. *)
Theorem process_episode_split_failure_keeps_download :
  let w := Demo.world Demo.big false Demo.notion_ok in
  Audio.split_audio_if_needed (audio_services w) Demo.path {[Demo.path := Demo.big]}
  = (Raise RuntimeError, {[Demo.path := Demo.big]}) ∧
  (try_block w Demo.episode1 Demo.config (Demo.store ∅)).1
  = ([], Raise RuntimeError) ∧
  fs (_process_episode w Demo.config (Demo.store ∅) Demo.episode1) !! Demo.path
  = Some Demo.big.
Proof. repeat split; vm_compute; reflexivity. Qed.

(** A download that breaks off in the middle of the body leaves the
    partial file, for the same reason; the exception that leaves
    [download_audio] is the one raised by its [except] clause. *)
Example process_episode_download_failure_keeps_partial :
  let sv := {| Audio.http_get := λ _ _, Audio.HttpError ChunkedEncodingError (Some Demo.small);
               Audio.pydub := None |} in
  (Audio.download_audio sv (audio_url Demo.episode1) (lit "/tmp/podscriber") 1 ∅).1
  = Raise AttributeError ∧
  (Audio.download_audio sv (audio_url Demo.episode1) (lit "/tmp/podscriber") 1 ∅).2
    !! Demo.path = Some Demo.small.
Proof. split; vm_compute; reflexivity. Qed.

(** C2, amended.  A run that reached publication and got a URL back
    records the episode, in memory and in the ledger file; a run that
    failed at or before publication leaves both as they were.  So for an
    episode that was not recorded before the run, it is recorded after the
    run exactly when the run reached publication and publication
    returned. *)
Theorem process_episode_ledger (w : World) (config : Config.Config) (s : Store)
    (ep : Episode) :
  let s' := _process_episode w config s ep in
  let key := str_of_int (number ep) in
  (∀ url, publication_returned w ep config s url →
     State._state (state s') !! key
     = Some {| State.l_title := title ep; State.l_notion_url := url;
               State.processed_at := utcnow_isoformat w |} ∧
     ledger_files s' !! State.state_file (state s) = Some (State._state (state s')) ∧
     State.is_processed (state s') (number ep) = true) ∧
  ((¬ ∃ url, publication_returned w ep config s url) →
     state s' = state s ∧ ledger_files s' = ledger_files s) ∧
  (State.is_processed (state s) (number ep) = false →
     (State.is_processed (state s') (number ep) = true
      ↔ ∃ url, publication_returned w ep config s url)).
Proof.
  intros s' key.
  destruct (process_episode_ledger_of_try w ep config s) as (Hst & Hled & _).
  fold s' in Hst, Hled.
  pose proof (try_block_ledger w ep config s) as Hledger.
  pose proof (try_block_stages w ep config s) as Hstages.
  destruct (try_block w ep config s) as [[paths r] s1].
  simpl in Hst, Hled, Hstages.
  assert (∀ url, r = Ok url →
            State._state (state s') !! key
            = Some {| State.l_title := title ep; State.l_notion_url := url;
                      State.processed_at := utcnow_isoformat w |} ∧
            ledger_files s' !! State.state_file (state s)
            = Some (State._state (state s')) ∧
            State.is_processed (state s') (number ep) = true) as Hok.
  { intros url ->. unfold State.mark_processed, State._save in Hledger.
    injection Hledger as Hs1 Hl1. rewrite Hst, Hled, Hs1, Hl1. simpl.
    split; [apply lookup_insert_eq|]. split; [apply lookup_insert_eq|].
    unfold State.is_processed. simpl. apply bool_decide_eq_true.
    rewrite lookup_insert_eq. eauto. }
  split; [|split].
  - intros url Hurl. apply Hok. by apply Hstages.
  - intros Hnone. destruct r as [url|e].
    + exfalso. apply Hnone. exists url. by apply Hstages.
    + destruct Hledger as [H1 H2]. by rewrite Hst, Hled.
  - intros Hfresh. split.
    + intros Hrec. destruct r as [url|e].
      * exists url. by apply Hstages.
      * destruct Hledger as [H1 _]. rewrite Hst, H1 in Hrec. congruence.
    + intros [url Hurl]. by apply (Hok url), Hstages.
Qed.

(** Episode 1, never recorded, in a world where every collaborator
    answers. *)
Lemma process_episode_ledger_witness :
  State.is_processed (state (Demo.store ∅)) 1 = false ∧
  (State.is_processed
     (state (_process_episode (Demo.world Demo.small true Demo.notion_ok)
               Demo.config (Demo.store ∅) Demo.episode1)) 1 = true
   ↔ ∃ url, publication_returned (Demo.world Demo.small true Demo.notion_ok)
              Demo.episode1 Demo.config (Demo.store ∅) url).
Proof.
  split; [reflexivity|].
  apply (process_episode_ledger (Demo.world Demo.small true Demo.notion_ok)
           Demo.config (Demo.store ∅) Demo.episode1).
  reflexivity.
Defined.

(** C2, as stated, fails for an episode the ledger already records:
    episode 1 is run again (as an explicit episode number makes possible),
    publication raises, and the episode is recorded after the run although
    the run never got a URL back. *)
Lemma recorded_without_publication :
  State.is_processed
    (state (_process_episode (Demo.world Demo.small true Demo.notion_down)
              Demo.config (Demo.store {[ str_of_int 1 := Demo.ledger_entry ]})
              Demo.episode1)) 1 = true ∧
  ¬ ∃ url, publication_returned (Demo.world Demo.small true Demo.notion_down)
             Demo.episode1 Demo.config
             (Demo.store {[ str_of_int 1 := Demo.ledger_entry ]}) url.
Proof.
  split; [vm_compute; reflexivity|].
  intros [url Hurl].
  apply try_block_stages in Hurl. vm_compute in Hurl. discriminate.
Qed.

End ProcessEpisode.

(* ===================================================================== *)
(** * state.py: the ledger                                                 *)
(* ===================================================================== *)

Module StateFacts.
Import State PyFacts.

(** [str] keeps episode numbers apart. *)
Lemma str_of_int_inj (a b : Z) : str_of_int a = str_of_int b → a = b.
Proof.
  unfold str_of_int. intros H. apply (f_equal unlit) in H.
  rewrite !unlit_lit in H.
  assert (∀ z, NilZero.int_of_string (NilZero.string_of_int (Z.to_int z))
               = Some (Z.to_int z)) as Hread.
  { intros z. apply NilZero.isi; destruct z as [|p|p]; simpl; try discriminate;
      intros [= Hp]; by apply (DecimalPos.Unsigned.to_uint_nonnil p). }
  apply (f_equal NilZero.int_of_string) in H. rewrite !Hread in H.
  injection H as H. rewrite <- (DecimalZ.of_to a), <- (DecimalZ.of_to b).
  by rewrite H.
Qed.

(** A key of a dictionary occurs once among its items. *)
Lemma key_once {V} (m : gmap str V) (k : str) (v : V) :
  m !! k = Some v →
  length (filter (λ kv : str * V, kv.1 = k) (map_to_list m)) = 1%nat.
Proof.
  intros Hk.
  rewrite <- (insert_id m k v Hk), <- insert_delete_eq.
  rewrite map_to_list_insert by apply lookup_delete_eq.
  rewrite filter_cons_True by done. simpl. f_equal.
  apply length_zero_iff_nil, elem_of_nil_inv.
  intros [k' v'] [Heq Hin]%list_elem_of_filter. simpl in Heq. subst k'.
  apply elem_of_map_to_list in Hin. by rewrite lookup_delete_eq in Hin.
Qed.

(** C5.  After [mark_processed] the ledger file holds the new document,
    entry included; a manager constructed afresh over that file reports
    the episode as processed; a second [mark_processed] of the same number
    overwrites the entry, so the count is the same after one call and
    after two, is one more than before when the number was new, and the
    key of the episode occurs once among the items of the document. *)
Theorem mark_processed_round_trip (sm : StateManager) (d : disk) (n : Z)
    (url1 title1 at1 url2 title2 at2 : str) :
  let r1 := mark_processed sm n url1 title1 at1 d in
  let r2 := mark_processed r1.1 n url2 title2 at2 r1.2 in
  let fresh1 := init (state_file sm) r1.2 in
  let fresh2 := init (state_file sm) r2.2 in
  let entry1 := {| l_title := title1; l_notion_url := url1; processed_at := at1 |} in
  let entry2 := {| l_title := title2; l_notion_url := url2; processed_at := at2 |} in
  r1.2 !! state_file sm = Some (_state r1.1) ∧
  _state r1.1 !! str_of_int n = Some entry1 ∧
  is_processed fresh1 n = true ∧
  is_processed fresh2 n = true ∧
  _state fresh1 !! str_of_int n = Some entry1 ∧
  _state fresh2 !! str_of_int n = Some entry2 ∧
  get_processed_count fresh2 = get_processed_count fresh1 ∧
  get_processed_count fresh1
    = (if is_processed sm n then get_processed_count sm
       else S (get_processed_count sm)) ∧
  length (filter (λ kv : str * LedgerEntry, kv.1 = str_of_int n)
            (map_to_list (_state fresh2))) = 1%nat ∧
  (∀ m, m ≠ n → is_processed fresh2 m = is_processed sm m).
Proof.
  intros r1 r2 fresh1 fresh2 entry1 entry2.
  assert (_state fresh1 = <[str_of_int n := entry1]> (_state sm)) as H1.
  { unfold fresh1, init, _load, r1, mark_processed, _save. simpl.
    by rewrite lookup_insert_eq. }
  assert (_state fresh2 = <[str_of_int n := entry2]> (_state sm)) as H2.
  { unfold fresh2, init, _load, r2, r1, mark_processed, _save. simpl.
    by rewrite lookup_insert_eq, insert_insert_eq. }
  split; [apply lookup_insert_eq|]. split; [apply lookup_insert_eq|].
  unfold is_processed, get_processed_count. rewrite H1, H2.
  split; [apply bool_decide_eq_true; rewrite lookup_insert_eq; eauto|].
  split; [apply bool_decide_eq_true; rewrite lookup_insert_eq; eauto|].
  split; [apply lookup_insert_eq|]. split; [apply lookup_insert_eq|].
  rewrite !map_size_insert.
  split; [done|]. split.
  - destruct (_state sm !! str_of_int n) eqn:E.
    + rewrite bool_decide_eq_true_2; eauto.
    + rewrite bool_decide_eq_false_2; [done|]. by intros [? ?].
  - split; [by apply (key_once _ _ entry2), lookup_insert_eq|].
    intros m Hm. rewrite lookup_insert_ne; [done|].
    intros Heq. by apply str_of_int_inj in Heq.
Qed.

End StateFacts.

(* ===================================================================== *)
(** * feed.py: numbering                                                   *)
(* ===================================================================== *)

Module FeedFacts.
Import Models Feed PyFacts.

Lemma tuple_lt_irrefl (a : list Z) : tuple_lt a a = false.
Proof.
  induction a as [|x a IH]; [done|]. simpl.
  by rewrite Z.ltb_irrefl.
Qed.

Lemma tuple_lt_asym (a b : list Z) : tuple_lt a b = true → tuple_lt b a = false.
Proof.
  revert b. induction a as [|x a IH]; intros [|y b]; simpl; try done.
  destruct (Z.ltb_spec x y), (Z.ltb_spec y x); try done; try lia.
  apply IH.
Qed.

(** "Not greater" is transitive. *)
Lemma tuple_le_trans (a b c : list Z) :
  tuple_lt b a = false → tuple_lt c b = false → tuple_lt c a = false.
Proof.
  revert b c. induction a as [|x a IH]; intros [|y b] [|z c]; simpl; try done.
  destruct (Z.ltb_spec y x), (Z.ltb_spec x y), (Z.ltb_spec z y),
    (Z.ltb_spec y z), (Z.ltb_spec z x), (Z.ltb_spec x z);
    try done; try lia.
  apply IH.
Qed.

(** Comparing prefixes never reverses the order of the whole tuples. *)
Lemma tuple_le_take (n : nat) (a b : list Z) :
  tuple_lt b a = false → tuple_lt (take n b) (take n a) = false.
Proof.
  revert a b. induction n as [|n IH]; intros [|x a] [|y b]; simpl; try done.
  destruct (Z.ltb_spec y x), (Z.ltb_spec x y); try done. apply IH.
Qed.

Section sorting.
Context {A : Type} (key : A → list Z).

Lemma insert_by_perm (x : A) (l : list A) : insert_by key x l ≡ₚ x :: l.
Proof.
  induction l as [|y l IH]; simpl; [done|].
  destruct (tuple_lt (key y) (key x)); [|done].
  rewrite IH. apply Permutation_swap.
Qed.

Lemma sort_by_perm (l : list A) : sort_by key l ≡ₚ l.
Proof.
  induction l as [|x l IH]; simpl; [done|].
  fold (sort_by key l). by rewrite insert_by_perm, IH.
Qed.

Lemma insert_by_sorted (x : A) (l : list A) :
  StronglySorted (key_le key) l → StronglySorted (key_le key) (insert_by key x l).
Proof.
  induction 1 as [|y l Hl IH Hy]; simpl.
  - repeat constructor.
  - destruct (tuple_lt (key y) (key x)) eqn:E.
    + constructor; [done|].
      rewrite insert_by_perm. constructor; [|done].
      by apply tuple_lt_asym.
    + constructor; [by constructor|].
      constructor; [done|].
      eapply Forall_impl; [exact Hy|]. intros z Hz.
      unfold key_le in *. by eapply tuple_le_trans.
Qed.

Lemma sort_by_sorted (l : list A) : StronglySorted (key_le key) (sort_by key l).
Proof.
  induction l as [|x l IH]; simpl; [constructor|].
  by apply insert_by_sorted.
Qed.

End sorting.

Lemma entries_with_audio_length (es : list Entry) :
  length (entries_with_audio es)
  = length (filter (λ e, has_audio e = true) es).
Proof.
  unfold entries_with_audio, has_audio.
  induction es as [|e es IH]; [done|]. simpl.
  rewrite filter_cons.
  destruct (_extract_audio_url e) as [[|c u]|]; simpl; try case_decide;
    try done; simpl; f_equal; exact IH.
Qed.

Lemma enumerate_fst {B} (start : Z) (l : list B) :
  (enumerate start l).*1 = seqZ start (Z.of_nat (length l)).
Proof.
  unfold enumerate. apply fst_zip. rewrite length_seqZ. lia.
Qed.

Lemma enumerate_snd {B} (start : Z) (l : list B) : (enumerate start l).*2 = l.
Proof.
  unfold enumerate. apply snd_zip. rewrite length_seqZ. lia.
Qed.

Lemma enumerate_cons {B} (start : Z) (x : B) (l : list B) :
  enumerate start (x :: l) = (start, x) :: enumerate (start + 1) l.
Proof.
  unfold enumerate. cbn [length].
  rewrite seqZ_cons by lia. simpl. do 3 f_equal; lia.
Qed.

Lemma enumerate_index {B} (start : Z) (l : list B) (p : Z * B) :
  p ∈ enumerate start l → start ≤ p.1.
Proof.
  intros Hp. apply (list_elem_of_fmap_2 fst) in Hp.
  rewrite enumerate_fst in Hp. apply elem_of_seqZ in Hp. lia.
Qed.

(** Numbering a sorted list: indices grow strictly, the order stays. *)
Lemma enumerate_sorted {B} (R : B → B → Prop) (start : Z) (l : list B) :
  StronglySorted R l →
  StronglySorted (λ p q : Z * B, p.1 < q.1 ∧ R p.2 q.2) (enumerate start l).
Proof.
  intros Hl. revert start. induction Hl as [|x l Hl IH Hx]; intros start.
  - constructor.
  - rewrite enumerate_cons. constructor; [apply IH|].
    apply Forall_forall. intros q Hq. simpl. split.
    + apply enumerate_index in Hq. lia.
    + rewrite Forall_forall in Hx. apply Hx.
      rewrite <- (enumerate_snd (start + 1) l). by apply list_elem_of_fmap_2.
Qed.

Lemma sorted_fmap {B C} (R : B → B → Prop) (R' : C → C → Prop) (f : B → C)
    (l : list B) :
  (∀ x y, x ∈ l → y ∈ l → R x y → R' (f x) (f y)) →
  StronglySorted R l → StronglySorted R' (f <$> l).
Proof.
  intros Hf Hl. induction Hl as [|x l Hl IH Hx]; [constructor|].
  csimpl. constructor.
  - apply IH. intros y z Hy Hz. apply Hf; apply elem_of_cons; by right.
  - apply Forall_fmap, Forall_forall. intros y Hy. simpl.
    rewrite Forall_forall in Hx.
    apply Hf; [apply elem_of_cons; by left | apply elem_of_cons; by right | by apply Hx].
Qed.

Lemma sorted_cases {B} (R : B → B → Prop) (l : list B) (a b : B) :
  StronglySorted R l → a ∈ l → b ∈ l → a = b ∨ R a b ∨ R b a.
Proof.
  induction 1 as [|x l Hl IH Hx]; intros Ha Hb.
  - by apply elem_of_nil in Ha.
  - rewrite Forall_forall in Hx.
    apply elem_of_cons in Ha as [->|Ha], Hb as [->|Hb]; auto.
Qed.

Lemma parse_feed_unfold (now : datetime) (feed : ParsedFeed) :
  parse_feed now feed
  = episode_of now (default (lit "Unknown Podcast") (feed_title feed))
      <$> enumerate 1 (sort_by sort_key (entries_with_audio (entries feed))).
Proof.
  unfold parse_feed.
  destruct (bozo feed && bool_decide (entries feed = [])) eqn:E; [|done].
  apply andb_true_iff in E as [_ E]. apply bool_decide_eq_true in E.
  by rewrite E.
Qed.

Lemma entries_with_audio_urls (es : list Entry) :
  (entries_with_audio es).*2
  = omap _extract_audio_url (filter (λ e, has_audio e = true) es).
Proof.
  unfold entries_with_audio.
  induction es as [|e es IH]; [done|].
  destruct (has_audio e) eqn:T.
  - rewrite filter_cons_True by done. unfold has_audio in T. csimpl.
    rewrite T. destruct (_extract_audio_url e) as [u|]; [|done].
    csimpl. by rewrite IH.
  - rewrite filter_cons_False by (by rewrite T). unfold has_audio in T.
    csimpl. rewrite T. csimpl. exact IH.
Qed.

Lemma entries_with_audio_entry (es : list Entry) (x : Entry * str) :
  x ∈ entries_with_audio es → x.1 ∈ filter (λ e, has_audio e = true) es.
Proof.
  unfold entries_with_audio. intros Hx.
  apply list_elem_of_omap in Hx as (e & He & Hx).
  destruct (truthy (_extract_audio_url e)) eqn:T; [|done].
  destruct (_extract_audio_url e) eqn:U; [|done].
  injection Hx as <-. simpl.
  apply list_elem_of_filter. split; [|done].
  unfold has_audio. by rewrite U.
Qed.

(** On dated entries the order of the keys is the order of the records'
    publish times. *)
Lemma dated_key_le (now : datetime) (x y : Entry * str) :
  is_Some (published_parsed x.1) → is_Some (published_parsed y.1) →
  key_le sort_key x y →
  datetime_lt (_parse_date now (published_parsed y.1))
              (_parse_date now (published_parsed x.1)) = false.
Proof.
  unfold key_le, sort_key, datetime_lt.
  intros [tx ->] [ty ->] Hle. simpl.
  apply (tuple_le_take 6) in Hle. exact Hle.
Qed.

(** The numbers of the records are 1..N, N the number of audio entries. *)
Lemma parse_feed_numbers (now : datetime) (feed : ParsedFeed) :
  number <$> parse_feed now feed
  = seqZ 1 (Z.of_nat (length (filter (λ e, has_audio e = true) (entries feed)))).
Proof.
  rewrite parse_feed_unfold, <- list_fmap_compose.
  change (number ∘ episode_of now (default (lit "Unknown Podcast") (feed_title feed)))
    with (@fst Z (Entry * str)).
  rewrite enumerate_fst, <- entries_with_audio_length.
  do 2 f_equal. apply Permutation_length, sort_by_perm.
Qed.

End FeedFacts.

Module FeedNumbering.
Import Models Feed PyFacts FeedFacts.

(** The entries of the audio pairs are the entries with a resolvable
    locator, in feed order. *)
Lemma entries_with_audio_fst (es : list Entry) :
  (entries_with_audio es).*1 = filter (λ e, has_audio e = true) es.
Proof.
  unfold entries_with_audio.
  induction es as [|e es IH]; [done|].
  destruct (has_audio e) eqn:T.
  - rewrite filter_cons_True by done. unfold has_audio in T. csimpl.
    rewrite T. destruct (_extract_audio_url e) as [u|]; [|done].
    csimpl. by rewrite IH.
  - rewrite filter_cons_False by (by rewrite T). unfold has_audio in T.
    csimpl. rewrite T. csimpl. exact IH.
Qed.

(** An undated entry sorts before every entry dated in year 0 or later. *)
Lemma undated_key_le (x y : Entry * str) (t : struct_time) :
  published_parsed x.1 = Some t → published_parsed y.1 = None →
  key_le sort_key x y → tm_year t < 0.
Proof.
  unfold key_le, sort_key. intros -> ->. simpl.
  destruct (Z.ltb_spec 0 (tm_year t)); [done|].
  destruct (Z.ltb_spec (tm_year t) 0); [done|]. done.
Qed.

(** C3, amended.  [parse_feed] returns one record per entry with a
    resolvable audio locator, numbered 1..N in list order, and the
    locators of the records are those of the audio entries; entries
    without one take no number.  Each record is made from one audio
    entry, each audio entry makes one record, and the publish time of
    the record is the timestamp of its entry, or the time of parsing
    where the entry has none.  In every feed the records of the entries
    that carry a timestamp are ordered oldest first among themselves:
    their publish times never decrease along the numbering, so between
    two of them a strictly later publish time means a strictly larger
    number.  A dated entry is numbered before an undated one only if its
    year is negative: otherwise the undated entries come first.  When
    every audio entry is dated, the whole list is ordered oldest first.
    Entries C, A, B with timestamps A < B < C come out as A = 1, B = 2,
    C = 3; entries C, U, A with U undated and A older than C come out as
    U = 1, A = 2, C = 3. *)
Theorem parse_feed_numbering (now : datetime) (feed : ParsedFeed) :
  let episodes := parse_feed now feed in
  let audio := filter (λ e, has_audio e = true) (entries feed) in
  let rows := records_with_entries now feed in
  number <$> episodes = seqZ 1 (Z.of_nat (length audio)) ∧
  length episodes = length audio ∧
  audio_url <$> episodes ≡ₚ omap _extract_audio_url audio ∧
  rows.*1 = episodes ∧
  rows.*2 ≡ₚ audio ∧
  Forall (λ r, published r.1 = _parse_date now (published_parsed r.2)) rows ∧
  StronglySorted
    (λ r q,
       number r.1 < number q.1 ∧
       (is_Some (published_parsed r.2) → is_Some (published_parsed q.2) →
        datetime_lt (published q.1) (published r.1) = false) ∧
       (∀ t, published_parsed r.2 = Some t → published_parsed q.2 = None →
             tm_year t < 0))
    rows ∧
  (∀ r q, r ∈ rows → q ∈ rows →
          is_Some (published_parsed r.2) → is_Some (published_parsed q.2) →
          datetime_lt (published r.1) (published q.1) = true →
          number r.1 < number q.1) ∧
  (Forall (λ e, is_Some (published_parsed e)) audio →
     StronglySorted
       (λ a b, number a < number b ∧ datetime_lt (published b) (published a) = false)
       episodes ∧
     ∀ a b, a ∈ episodes → b ∈ episodes →
            datetime_lt (published a) (published b) = true → number a < number b) ∧
  (λ e, (title e, number e)) <$> parse_feed Demo.clock Demo.feed_CAB
  = [(lit "A", 1); (lit "B", 2); (lit "C", 3)] ∧
  (λ e, (title e, number e)) <$> parse_feed Demo.clock Cases.feed_CUA
  = [(lit "U", 1); (lit "A", 2); (lit "C", 3)].
Proof.
  intros episodes audio rows. subst episodes rows.
  split; [apply parse_feed_numbers|].
  unfold records_with_entries. rewrite parse_feed_unfold.
  set (name := default (lit "Unknown Podcast") (feed_title feed)).
  set (sorted := sort_by sort_key (entries_with_audio (entries feed))).
  assert (length sorted = length audio) as Hlen.
  { unfold sorted, audio. rewrite <- entries_with_audio_length.
    apply Permutation_length, sort_by_perm. }
  assert (StronglySorted
            (λ r q : Episode * Entry,
               number r.1 < number q.1 ∧
               (is_Some (published_parsed r.2) → is_Some (published_parsed q.2) →
                datetime_lt (published q.1) (published r.1) = false) ∧
               (∀ t, published_parsed r.2 = Some t → published_parsed q.2 = None →
                     tm_year t < 0))
            ((λ ix, (episode_of now name ix, ix.2.1)) <$> enumerate 1 sorted))
    as Hrows.
  { eapply sorted_fmap; [|apply enumerate_sorted, (sort_by_sorted sort_key)].
    intros [i x] [j y] _ _ [Hij Hle]. simpl in *. split; [done|]. split.
    - intros Hx Hy. by apply dated_key_le.
    - intros t Hx Hy. by apply (undated_key_le x y). }
  split; [|split; [|split; [|split; [|split; [|split; [|split; [|split]]]]]]].
  - rewrite length_fmap, <- Hlen.
    by rewrite <- (enumerate_snd 1 sorted) at 2; rewrite length_fmap.
  - rewrite <- list_fmap_compose.
    change (audio_url ∘ episode_of now name)
      with ((@snd Entry str) ∘ (@snd Z (Entry * str))).
    rewrite list_fmap_compose, enumerate_snd.
    unfold sorted, audio. rewrite <- entries_with_audio_urls.
    apply fmap_Permutation, sort_by_perm.
  - by rewrite <- list_fmap_compose.
  - rewrite <- list_fmap_compose.
    change (snd ∘ (λ ix : Z * (Entry * str), (episode_of now name ix, ix.2.1)))
      with ((@fst Entry str) ∘ (@snd Z (Entry * str))).
    rewrite list_fmap_compose, enumerate_snd.
    unfold sorted, audio. rewrite <- entries_with_audio_fst.
    apply fmap_Permutation, sort_by_perm.
  - by apply Forall_fmap, Forall_forall.
  - exact Hrows.
  - intros r q Hr Hq Hdr Hdq Hlt.
    destruct (sorted_cases _ _ r q Hrows Hr Hq) as [->|[[Hn _]|[_ [Hp _]]]].
    + unfold datetime_lt in Hlt. by rewrite tuple_lt_irrefl in Hlt.
    + done.
    + rewrite Hp in Hlt by done. done.
  - intros Hdated.
    assert (StronglySorted
              (λ a b, number a < number b
                      ∧ datetime_lt (published b) (published a) = false)
              (episode_of now name <$> enumerate 1 sorted)) as Hsorted.
    { eapply sorted_fmap; [|apply enumerate_sorted, (sort_by_sorted sort_key)].
      intros [i x] [j y] Hx Hy [Hij Hle]. simpl in *. split; [done|].
      assert (∀ p : Z * (Entry * str),
                p ∈ enumerate 1 sorted → is_Some (published_parsed p.2.1)) as Hd.
      { intros p Hp. apply (list_elem_of_fmap_2 snd) in Hp.
        rewrite enumerate_snd in Hp. unfold sorted in Hp.
        rewrite sort_by_perm in Hp. apply entries_with_audio_entry in Hp.
        rewrite Forall_forall in Hdated. by apply Hdated. }
      apply dated_key_le; [apply (Hd _ Hx) | apply (Hd _ Hy) | done]. }
    split; [done|].
    intros a b Ha Hb Hlt.
    destruct (sorted_cases _ _ a b Hsorted Ha Hb) as [->|[[Hn _]|[_ Hp]]].
    + unfold datetime_lt in Hlt. by rewrite tuple_lt_irrefl in Hlt.
    + done.
    + congruence.
  - split; reflexivity.
Qed.

Lemma parse_feed_numbering_witness :
  Forall (λ e, is_Some (published_parsed e))
    (filter (λ e, has_audio e = true) (entries Demo.feed_CAB)) ∧
  ∀ a b, a ∈ parse_feed Demo.clock Demo.feed_CAB →
         b ∈ parse_feed Demo.clock Demo.feed_CAB →
         datetime_lt (published a) (published b) = true → number a < number b.
Proof.
  assert (Forall (λ e, is_Some (published_parsed e))
            (filter (λ e, has_audio e = true) (entries Demo.feed_CAB))) as Hdated.
  { repeat (constructor; [by eexists|]). constructor. }
  split; [exact Hdated|].
  destruct (parse_feed_numbering Demo.clock Demo.feed_CAB)
    as (_ & _ & _ & _ & _ & _ & _ & _ & H & _).
  apply (H Hdated).
Defined.

(** C3, as stated, fails on a feed with an undated audio entry: the entry
    sorts before the dated one and takes number 1, while its record is
    stamped with the time of parsing, later than the publish time of
    number 2. *)
Lemma undated_entry_numbered_first :
  (λ e, (number e, title e, year (published e)))
    <$> parse_feed Demo.clock Demo.feed_undated
  = [(1, lit "U", 2026); (2, lit "D", 2020)] ∧
  ∃ a b, a ∈ parse_feed Demo.clock Demo.feed_undated ∧
         b ∈ parse_feed Demo.clock Demo.feed_undated ∧
         datetime_lt (published a) (published b) = true ∧
         number b < number a.
Proof.
  split; [reflexivity|].
  eexists _, _. split; [apply list_elem_of_lookup; by exists 1%nat|].
  split; [apply list_elem_of_lookup; by exists 0%nat|].
  by split.
Qed.

End FeedNumbering.

(* ===================================================================== *)
(** * main.py: selection and exit code                                     *)
(* ===================================================================== *)

Module SelectionFacts.
Import Models Main PyFacts ProcessFacts.

Lemma filter_filter_andb {A} (f g : A → bool) (l : list A) :
  List.filter g (List.filter f l) = List.filter (λ x, f x && g x) l.
Proof.
  induction l as [|x l IH]; [done|]. simpl.
  destruct (f x); simpl; [destruct (g x)|]; by rewrite IH.
Qed.


Lemma filter_none {A} (f : A → bool) (l : list A) :
  (∀ x, x ∈ l → f x = false) → List.filter f l = [].
Proof.
  induction l as [|x l IH]; intros H; [done|]. simpl.
  rewrite (H x) by (apply elem_of_cons; by left).
  apply IH. intros y Hy. apply H, elem_of_cons. by right.
Qed.


(** The ledger object of a run mirrors the ledger file, and no episode
    ever leaves it. *)
Lemma process_episode_sync (w : World) (config : Config.Config) (s : Store)
    (ep : Episode) :
  state s = State.init State.STATE_FILE (ledger_files s) →
  state (_process_episode w config s ep)
  = State.init State.STATE_FILE (ledger_files (_process_episode w config s ep)) ∧
  ∀ n, State.is_processed (state s) n = true →
       State.is_processed (state (_process_episode w config s ep)) n = true.
Proof.
  intros Hsync.
  destruct (process_episode_ledger_of_try w ep config s) as (-> & -> & _).
  pose proof (try_block_ledger w ep config s) as Hledger.
  destruct (try_block w ep config s) as [[paths r] s1]. simpl.
  destruct r as [url|e].
  - unfold State.mark_processed, State._save in Hledger.
    injection Hledger as -> ->. rewrite Hsync. simpl. split.
    + unfold State.init, State._load. simpl. by rewrite lookup_insert_eq.
    + intros n. unfold State.is_processed. simpl.
      rewrite !bool_decide_eq_true. intros Hn.
      destruct (decide (str_of_int (number ep) = str_of_int n)) as [<-|Hne].
      * rewrite lookup_insert_eq. eauto.
      * by rewrite lookup_insert_ne.
  - destruct Hledger as [-> ->]. done.
Qed.

Lemma run_store_sync (w : World) (config : Config.Config)
    (targets : list Episode) (s : Store) :
  state s = State.init State.STATE_FILE (ledger_files s) →
  state (foldl (_process_episode w config) s targets)
  = State.init State.STATE_FILE
      (ledger_files (foldl (_process_episode w config) s targets)) ∧
  ∀ n, State.is_processed (state s) n = true →
       State.is_processed (state (foldl (_process_episode w config) s targets)) n
       = true.
Proof.
  revert s. induction targets as [|ep targets IH]; intros s Hsync; [done|].
  simpl. destruct (process_episode_sync w config s ep Hsync) as [Hs Hm].
  destruct (IH _ Hs) as [Hs' Hm']. split; [done|]. auto.
Qed.



(** A negative limit is a slice bound that counts from the end: limit -1
    drops the last eligible episode. *)
Example negative_limit_counts_from_the_end :
  select_targets (Demo.args None None (Some (-1))) Demo.ledger_124 Demo.seven
  = Some [Demo.numbered 3; Demo.numbered 5; Demo.numbered 6].
Proof. reflexivity. Qed.




End SelectionFacts.

Module RunFacts.
Import Models Main PyFacts ProcessFacts SelectionFacts.

Lemma filter_unique {A} (f : A → Z) (l : list A) (x : A) :
  NoDup (f <$> l) → x ∈ l → List.filter (λ y, f y =? f x) l = [x].
Proof.
  induction l as [|y l IH]; intros Hnd Hx; [by apply elem_of_nil in Hx|].
  csimpl in Hnd. apply NoDup_cons in Hnd as [Hy Hnd]. simpl.
  apply elem_of_cons in Hx as [->|Hx].
  - rewrite Z.eqb_refl. f_equal. apply filter_none. intros z Hz.
    apply Z.eqb_neq. intros Heq. apply Hy. rewrite <- Heq.
    by apply list_elem_of_fmap_2.
  - destruct (Z.eqb_spec (f y) (f x)) as [Heq|_]; [|by apply IH].
    exfalso. apply Hy. rewrite Heq. by apply list_elem_of_fmap_2.
Qed.

Lemma parse_feed_numbers_NoDup (now : datetime) (feed : Feed.ParsedFeed) :
  NoDup (number <$> Feed.parse_feed now feed).
Proof.
  rewrite FeedFacts.parse_feed_numbers. apply NoDup_seqZ.
Qed.

(** With an explicit number the target is the episode of that number,
    whatever the ledger, the floor and the limit are. *)
Lemma select_targets_explicit (a : Args) (st : State.StateManager)
    (episodes : list Episode) (ep : Episode) :
  episode a = Some (number ep) →
  NoDup (number <$> episodes) →
  ep ∈ episodes →
  select_targets a st episodes = Some [ep].
Proof.
  intros Hmode Hnd Hep. unfold select_targets. rewrite Hmode.
  by rewrite (filter_unique number episodes ep Hnd Hep).
Qed.

(** C10.  With an explicit episode number the targets depend on the feed
    and the number alone: not on the ledger, not on the floor, not on the
    limit.  When the feed has an episode of that number, the target is
    that one episode, also when the ledger marks it processed; the run
    lists it, exits with 0 and, unless it is a dry run, hands it to the
    pipeline, whose result is the result of the run. *)
Theorem explicit_episode_bypasses_ledger (w : World) (a : Args)
    (config : Config.Config) (files : Audio.fsys) (d : State.disk) (n : Z) :
  episode a = Some n →
  let episodes :=
    Feed.parse_feed (now w) (feedparser_parse w (Config.rss_feed_url config)) in
  let s0 := {| fs := files; ledger_files := d;
               state := State.init State.STATE_FILE d; notion_calls := [] |} in
  let out := run w a config files d in
  (∀ st st' a' (eps : list Episode),
     episode a' = Some n → select_targets a' st' eps = select_targets a st eps) ∧
  (∀ ep, ep ∈ episodes → number ep = n →
     (∀ st, select_targets a st episodes = Some [ep]) ∧
     selected out = [ep] ∧
     exit_code out = 0 ∧
     (dry_run a = false →
        processed out = [ep] ∧
        final_fs out = fs (_process_episode w config s0 ep) ∧
        final_ledger out = ledger_files (_process_episode w config s0 ep) ∧
        calls out = notion_calls (_process_episode w config s0 ep))).
Proof.
  intros Hmode episodes s0 out. split.
  { intros st st' a' eps Ha'. unfold select_targets. by rewrite Hmode, Ha'. }
  intros ep Hep Hn. subst n.
  assert (∀ st, select_targets a st episodes = Some [ep]) as Hsel.
  { intros st. apply select_targets_explicit; [done| |done].
    apply parse_feed_numbers_NoDup. }
  split; [exact Hsel|].
  unfold out, run. fold episodes. rewrite Hsel.
  destruct episodes as [|e0 es]; [by apply elem_of_nil in Hep|].
  unfold process_targets. fold s0.
  destruct (dry_run a); by repeat split.
Qed.

(** Episode 1 of the demo feed, already in the ledger, asked for together
    with a floor of 5 and a limit of 0. *)
Lemma explicit_episode_bypasses_ledger_witness :
  Main.episode (Demo.args (Some 1) (Some 5) (Some 0)) = Some 1 ∧
  State.is_processed
    (State.init State.STATE_FILE
       {[ State.STATE_FILE := {[ str_of_int 1 := Demo.ledger_entry ]} ]}) 1 = true ∧
  ∃ ep, number ep = 1 ∧
        processed
          (run (Demo.world Demo.small true Demo.notion_ok)
             (Demo.args (Some 1) (Some 5) (Some 0)) Demo.config ∅
             {[ State.STATE_FILE := {[ str_of_int 1 := Demo.ledger_entry ]} ]})
        = [ep].
Proof.
  split; [reflexivity|]. split; [reflexivity|].
  assert (∃ ep, Feed.parse_feed Demo.clock Demo.feed_CAB !! 0%nat = Some ep
                ∧ number ep = 1) as (ep & Hep & Hn).
  { eexists. split; reflexivity. }
  exists ep. split; [exact Hn|].
  destruct (explicit_episode_bypasses_ledger
              (Demo.world Demo.small true Demo.notion_ok)
              (Demo.args (Some 1) (Some 5) (Some 0)) Demo.config ∅
              {[ State.STATE_FILE := {[ str_of_int 1 := Demo.ledger_entry ]} ]}
              1 eq_refl) as [_ Hrun].
  apply (Hrun ep); [|exact Hn|reflexivity].
  apply list_elem_of_lookup. by exists 0%nat.
Defined.

(** ** The exit code *)

Lemma process_targets_exit_code (w : World) (a : Args) (config : Config.Config)
    (targets : list Episode) (s0 : Store) :
  exit_code (process_targets w a config targets s0) = 0.
Proof.
  unfold process_targets. destruct targets; [done|]. by destruct (dry_run a).
Qed.

(** The only way a run with a loaded configuration ends with a non-zero
    code: an explicit number that no episode of a non-empty feed has. *)
Lemma run_exit_code (w : World) (a : Args) (config : Config.Config)
    (files : Audio.fsys) (d : State.disk) :
  let episodes :=
    Feed.parse_feed (now w) (feedparser_parse w (Config.rss_feed_url config)) in
  (exit_code (run w a config files d) = 0 ∨ exit_code (run w a config files d) = 1) ∧
  (exit_code (run w a config files d) = 1 ↔
   ∃ n, episode a = Some n ∧ episodes ≠ [] ∧ ∀ ep, ep ∈ episodes → number ep ≠ n).
Proof.
  intros episodes. unfold run. fold episodes.
  destruct episodes as [|e0 es] eqn:E.
  { split; [by left|]. split; [done|]. by intros (n & _ & H & _). }
  destruct (select_targets a _ (e0 :: es)) as [targets|] eqn:S.
  - rewrite process_targets_exit_code. split; [by left|]. split; [done|].
    intros (n & Hn & _ & Hnone). exfalso.
    unfold select_targets in S. rewrite Hn in S.
    destruct (List.filter (λ ep, number ep =? n) (e0 :: es)) as [|t ts] eqn:F;
      [done|].
    assert (In t (List.filter (λ ep, number ep =? n) (e0 :: es))) as Hin
      by (rewrite F; by left).
    apply filter_In in Hin as [Hin Heq]. apply Z.eqb_eq in Heq.
    by apply (Hnone t); [apply list_elem_of_In|].
  - split; [by right|]. split; [|done]. intros _.
    unfold select_targets in S.
    destruct (episode a) as [n|]; [|done]. exists n.
    split; [done|]. split; [done|]. intros ep Hep Heq.
    destruct (List.filter (λ ep, number ep =? n) (e0 :: es)) as [|t ts] eqn:F;
      [|done].
    assert (In ep (List.filter (λ ep, number ep =? n) (e0 :: es))) as Hin
      by (apply filter_In; split; [by apply list_elem_of_In | by apply Z.eqb_eq]).
    by rewrite F in Hin.
Qed.

(** C7.  The call of line 29 passes the keyword [database_id_override],
    which the signature of [load_config] does not have: it raises
    [TypeError] before the body runs, the [except ValueError] clause does
    not catch it, and the process ends with code 1 before the feed is
    read, with no episode processed and nothing changed.  This is so on
    every run, whatever the command line and the environment: with every
    required variable set, a feed of three episodes and no flag, where
    the claim has exit code 0, the exit code is 1; and likewise with the
    database override given. *)
Theorem main_keyword_mismatch (w : World) (a : Args) (files : Audio.fsys)
    (d : State.disk) :
  Config.load_config (env w)
    [("feed_url_override", feed_url a);
     ("database_id_override", database_id a)]%string = Raise TypeError ∧
  main w a files d = stopped 1 [] files d ∧
  Config.missing (env (Demo.world Demo.small true Demo.notion_ok)) = [] ∧
  length (Feed.parse_feed Demo.clock Demo.feed_CAB) = 3%nat ∧
  exit_code
    (main (Demo.world Demo.small true Demo.notion_ok) (Demo.args None None None) ∅ ∅)
  = 1 ∧
  exit_code
    (main (Demo.world Demo.small true Demo.notion_ok)
       {| episode := None; from_episode := None; limit := None; dry_run := false;
          feed_url := None; database_id := Some (lit "other-db") |} ∅ ∅)
  = 1.
Proof. repeat split; vm_compute; reflexivity. Qed.

End RunFacts.

(* ===================================================================== *)
(** * extractor.py: partial responses                                      *)
(* ===================================================================== *)

Module ExtractorFacts.
Import Models Extractor Main ProcessFacts.








End ExtractorFacts.

(* ===================================================================== *)
(** * notion_writer.py: batches and truncation                             *)
(* ===================================================================== *)

Module NotionFacts.
Import Models NotionWriter PyFacts.












End NotionFacts.

Module NotionBatches.
Import Models NotionWriter PyFacts NotionFacts.



End NotionBatches.

(* ===================================================================== *)
(** * audio.py: download, file names, cleanup                              *)
(* ===================================================================== *)

Module DownloadFacts.
Import Audio PyFacts AudioFacts StateFacts ProcessFacts.

(** Two maps that agree at every path are the same map; [dest] is the
    only path where the retry loop writes. *)
Ltac same_files dest :=
  apply map_eq; intros q; destruct (decide (q = dest)) as [->|];
  repeat first
    [ rewrite lookup_insert_eq | rewrite lookup_delete_eq
    | rewrite lookup_insert_ne by congruence
    | rewrite lookup_delete_ne by congruence ];
  try done.

(** A pair is known by its first component and whatever its second
    is. *)
Lemma pair_of_fst {A B} (p : A * B) (a : A) : p.1 = a → p = (a, p.2).
Proof. destruct p. simpl. by intros ->. Qed.

(** The [except] clause of the retry loop cannot be evaluated: whatever
    the exception that reaches it, the clause raises [AttributeError]. *)
Lemma retried_raises (e : exn) : retried e = Raise AttributeError.
Proof. reflexivity. Qed.

(** X1.  [download_audio] returns exactly when the first request
    delivers the body: it then returns the destination path, the
    destination holds that body and every other file is as it was.  No
    second request is made, so what the server would answer to one plays
    no part. *)
Theorem download_audio_first_request (sv : Services) (url temp_dir : str) (n : Z)
    (fs fs' : fsys) (p : Path) :
  download_audio sv url temp_dir n fs = (Ok p, fs') ↔
  ∃ f, http_get sv url 1 = HttpOk f ∧
       p = download_dest url temp_dir n ∧
       fs' = <[download_dest url temp_dir n := f]> fs.
Proof.
  unfold download_audio. set (dest := download_dest url temp_dir n).
  cbn [seq _DOWNLOAD_RETRIES download_attempts].
  destruct (http_get sv url 1) as [f|e partial].
  - split.
    + intros [= <- <-]. exists f. split; [done|]. split; [done|]. same_files dest.
    + intros (f' & [= <-] & -> & ->). f_equal. same_files dest.
  - rewrite retried_raises. split; [done|]. by intros (f & ? & _).
Qed.

(** X2.  When the first request raises, whatever the exception,
    [download_audio] raises [AttributeError] and makes no further
    request: the [except] clause names [requests.ChunkedEncodingError],
    which the package does not export, so that evaluating the clause
    raises in place of the exception of the request.  The destination is
    left with the part of the body that had arrived, if any, and every
    other file is as it was. *)
Theorem download_audio_never_retries (sv : Services) (url temp_dir : str) (n : Z)
    (fs : fsys) (e : exn) (partial : option file) :
  http_get sv url 1 = HttpError e partial →
  download_audio sv url temp_dir n fs
  = (Raise AttributeError,
     match partial with
     | Some f => <[download_dest url temp_dir n := f]> fs
     | None => delete (download_dest url temp_dir n) fs
     end).
Proof.
  intros Hfirst. unfold download_audio. set (dest := download_dest url temp_dir n).
  cbn [seq _DOWNLOAD_RETRIES download_attempts].
  rewrite Hfirst, retried_raises. f_equal. destruct partial; same_files dest.
Qed.

Lemma download_audio_never_retries_witness :
  http_get Cases.flaky Cases.url 3 = HttpOk Demo.big ∧
  download_audio Cases.flaky Cases.url Cases.temp_dir 1 ∅
  = (Raise AttributeError,
     <[download_dest Cases.url Cases.temp_dir 1 := Demo.small]> ∅).
Proof.
  split; [reflexivity|].
  apply (download_audio_never_retries Cases.flaky Cases.url Cases.temp_dir 1 ∅
           ConnectionError (Some Demo.small)).
  reflexivity.
Defined.

End DownloadFacts.

Module FileNames.
Import Audio PyFacts AudioFacts StateFacts.

Lemma lit_cons (c : ascii) (s : string) : lit (String c s) = N_of_ascii c :: lit s.
Proof. reflexivity. Qed.

(** A decimal numeral holds digits, and a minus sign at most. *)
Lemma uint_no_dot (d : Decimal.uint) : dot ∉ lit (NilEmpty.string_of_uint d).
Proof.
  induction d; simpl; rewrite ?lit_cons;
    [apply not_elem_of_nil | apply not_elem_of_cons; split; [by compute | done] ..].
Qed.

Lemma str_of_int_no_dot (z : Z) : dot ∉ str_of_int z.
Proof.
  assert (∀ d, dot ∉ lit (NilZero.string_of_uint d)) as Hu.
  { intros d. destruct d; try apply uint_no_dot.
    simpl. rewrite lit_cons. apply not_elem_of_cons. split; [by compute|].
    apply not_elem_of_nil. }
  unfold str_of_int. destruct z as [|p|p]; simpl.
  - apply (Hu (Decimal.D0 Decimal.Nil)).
  - apply Hu.
  - rewrite lit_cons. apply not_elem_of_cons. split; [by compute | apply Hu].
Qed.

(** A text is cut at the first occurrence of a character in one way. *)
Lemma first_occurrence_unique {A} (c : A) (l1 l2 t1 t2 : list A) :
  c ∉ l1 → c ∉ l2 → l1 ++ c :: t1 = l2 ++ c :: t2 → l1 = l2.
Proof.
  revert l2. induction l1 as [|x l1 IH]; intros [|y l2] H1 H2 Heq; simpl in Heq.
  - done.
  - injection Heq as -> _. exfalso. apply H2, elem_of_cons. by left.
  - injection Heq as -> _. exfalso. apply H1, elem_of_cons. by left.
  - injection Heq as -> Heq. f_equal.
    apply not_elem_of_cons in H1 as [_ H1]. apply not_elem_of_cons in H2 as [_ H2].
    by apply IH.
Qed.

(** The extension of a download always starts with a dot. *)
Lemma url_ext_shape (url : str) : ∃ t, url_ext url = dot :: t.
Proof.
  unfold url_ext.
  destruct (suffix_shape (final_component [] [] (before_first 63%N url)))
    as [->|[t ->]]; [by exists (lit "mp3") | by exists t].
Qed.

Lemma before_first_again (c : N) (s q : str) :
  before_first c (before_first c s ++ c :: q) = before_first c s.
Proof.
  induction s as [|x s IH]; simpl.
  - by rewrite decide_True.
  - destruct (decide (x = c)) as [->|Hne]; simpl.
    + by rewrite decide_True.
    + rewrite decide_False by done. by rewrite IH.
Qed.

(** X3.  The files of two different episodes never have the same name,
    whatever the URLs they are downloaded from: the name is the word
    episode, the number and an extension that starts with a dot, and the
    numeral holds no dot. *)
Theorem download_dest_distinct (url1 url2 dir1 dir2 : str) (n m : Z) :
  n ≠ m → download_dest url1 dir1 n ≠ download_dest url2 dir2 m.
Proof.
  intros Hne Heq. apply (f_equal name) in Heq.
  cbn [name download_dest] in Heq. apply app_inv_head in Heq.
  destruct (url_ext_shape url1) as [t1 E1], (url_ext_shape url2) as [t2 E2].
  rewrite E1, E2 in Heq.
  apply first_occurrence_unique in Heq; try apply str_of_int_no_dot.
  by apply str_of_int_inj in Heq.
Qed.

Lemma download_dest_distinct_witness :
  (1 ≠ 12) ∧
  download_dest (lit "https://cdn.example/a.mp3") Cases.temp_dir 1
  ≠ download_dest (lit "https://cdn.example/show.12.mp3") Cases.temp_dir 12.
Proof.
  split; [lia|]. apply (download_dest_distinct _ _ _ _ 1 12). lia.
Defined.

(** X4.  The extension of the downloaded file depends only on the part
    of the URL before the first question mark: a query string, whatever
    it holds, plays no part.  And the extension is never empty: it starts
    with a dot, [.mp3] standing in when the URL has none. *)
Theorem url_ext_ignores_query (url query : str) :
  url_ext (before_first 63%N url ++ 63%N :: query) = url_ext url ∧
  ∃ t, url_ext url = dot :: t.
Proof.
  split; [|apply url_ext_shape].
  unfold url_ext. by rewrite before_first_again.
Qed.

End FileNames.

Module SplitSafety.
Import Audio PyFacts AudioFacts.

Section export_frame.
Context (cd : Codec) (audio : list Z) (base : Path).


End export_frame.



End SplitSafety.

Module Cleanup.
Import Audio ProcessFacts.

(** X6.  [cleanup_audio] removes the listed files and no other; a listed
    file that does not exist is passed over, so that cleaning up where
    nothing is left changes nothing and a second cleanup changes nothing
    either. *)
Theorem cleanup_audio_removes_listed (paths : list Path) (fs : fsys) :
  (∀ q, cleanup_audio paths fs !! q = if decide (q ∈ paths) then None else fs !! q) ∧
  cleanup_audio paths (cleanup_audio paths fs) = cleanup_audio paths fs ∧
  ((∀ p, p ∈ paths → fs !! p = None) → cleanup_audio paths fs = fs).
Proof.
  split; [apply cleanup_audio_lookup|]. split.
  - apply map_eq. intros q. rewrite !cleanup_audio_lookup.
    by destruct (decide (q ∈ paths)).
  - intros Hgone. apply map_eq. intros q. rewrite cleanup_audio_lookup.
    destruct (decide (q ∈ paths)) as [Hin|]; [|done]. by rewrite Hgone.
Qed.

End Cleanup.

(* ===================================================================== *)
(** * transcriber.py                                                       *)
(* ===================================================================== *)

Module TranscribeFacts.
Import Audio Transcriber.

(** The loop returns the texts exactly when every chunk is on disk and
    the service transcribes it. *)
Lemma transcribe_all_ok (whisper : file → result str) (paths : list Path)
    (fs : fsys) (texts : list str) :
  transcribe_all whisper paths fs = Ok texts ↔
  Forall2 (λ p t, ∃ f, fs !! p = Some f ∧ whisper f = Ok t) paths texts.
Proof.
  revert texts. induction paths as [|p paths IH]; intros texts; simpl.
  - split; [intros [= <-]; constructor | by intros ->%Forall2_nil_inv_l].
  - destruct (fs !! p) as [f|] eqn:Hp.
    + destruct (whisper f) as [t|e] eqn:Hw; simpl.
      * destruct (transcribe_all whisper paths fs) as [ts|e]; simpl.
        -- split.
           ++ intros [= <-]. constructor; [eauto | by apply IH].
           ++ intros (t' & ts' & (f' & Hf' & Hw') & Hts & ->)%Forall2_cons_inv_l.
              apply IH in Hts. congruence.
        -- split; [done|].
           intros (t' & ts' & _ & Hts & ->)%Forall2_cons_inv_l.
           by apply IH in Hts.
      * split; [done|].
        intros (t' & ts' & (f' & Hf' & Hw') & _)%Forall2_cons_inv_l. congruence.
    + split; [done|].
      intros (t' & ts' & (f' & Hf' & _) & _)%Forall2_cons_inv_l. congruence.
Qed.

(** X7.  [transcribe] returns a transcript exactly when every chunk file
    exists and the service transcribes every one of them, and the
    transcript is then the texts of the chunks, one per chunk and in the
    order of the chunks, joined by the separator line. *)
Theorem transcribe_joins_in_order (whisper : file → result str)
    (paths : list Path) (fs : fsys) (transcript : str) :
  transcribe whisper paths fs = Ok transcript ↔
  ∃ texts,
    Forall2 (λ p t, ∃ f, fs !! p = Some f ∧ whisper f = Ok t) paths texts ∧
    transcript = join separator texts.
Proof.
  unfold transcribe. split.
  - destruct (transcribe_all whisper paths fs) as [texts|e] eqn:E; [|done].
    intros [= <-]. exists texts. split; [by apply transcribe_all_ok | done].
  - intros (texts & Hall & ->). apply transcribe_all_ok in Hall. by rewrite Hall.
Qed.

(** X8.  The chunks are submitted in order and the first failure ends
    the transcription: when the chunks before [p] are transcribed and [p]
    is missing or refused, [transcribe] raises the exception of [p],
    whatever chunks come after it. *)
Theorem transcribe_first_failure (whisper : file → result str)
    (before after : list Path) (p : Path) (fs : fsys) (e : exn) :
  Forall (λ q, ∃ f t, fs !! q = Some f ∧ whisper f = Ok t) before →
  (fs !! p = None ∧ e = FileNotFoundError) ∨
  (∃ f, fs !! p = Some f ∧ whisper f = Raise e) →
  transcribe whisper (before ++ p :: after) fs = Raise e.
Proof.
  intros Hbefore Hp. unfold transcribe.
  assert (transcribe_all whisper (before ++ p :: after) fs = Raise e) as ->; [|done].
  induction Hbefore as [|q before (f & t & Hq & Hw) _ IH]; simpl.
  - destruct Hp as [[-> ->]|(f & -> & ->)]; done.
  - by rewrite Hq, Hw, IH.
Qed.

Lemma transcribe_first_failure_witness :
  transcribe Cases.whisper_limit [Cases.chunk 0; Cases.chunk 1; Cases.chunk 2]
    Cases.chunks = Raise OpenAIError.
Proof.
  apply (transcribe_first_failure Cases.whisper_limit
           [Cases.chunk 0; Cases.chunk 1] [] (Cases.chunk 2) Cases.chunks OpenAIError).
  - repeat constructor; exists Demo.small, (lit "welcome back"); split;
      vm_compute; reflexivity.
  - right. exists Demo.big. split; vm_compute; reflexivity.
Defined.

End TranscribeFacts.

(* ===================================================================== *)
(** * feed.py: descriptions                                                *)
(* ===================================================================== *)

Module MarkupFacts.
Import Feed Markup.

Lemma find_gt_zero (s : str) : find_gt s = Some 0%nat → ∃ s', s = 62%N :: s'.
Proof.
  destruct s as [|c s]; simpl; [done|].
  destruct (decide (c = 62%N)) as [->|]; [by eauto|].
  by destruct (find_gt s).
Qed.

Lemma find_gt_none (s : str) : find_gt s = None ↔ 62%N ∉ s.
Proof.
  induction s as [|c s IH]; simpl.
  - split; [intros _; apply not_elem_of_nil | done].
  - rewrite not_elem_of_cons. destruct (decide (c = 62%N)) as [->|Hc].
    + split; [done | by intros [? _]].
    + destruct (find_gt s); simpl.
      * split; [done|]. intros [_ H]. by apply IH in H.
      * split; [|done]. intros _. split; [done | by apply IH].
Qed.

Lemma find_gt_app (s b : str) (i : nat) :
  find_gt s = Some i → find_gt (s ++ b) = Some i.
Proof.
  revert i. induction s as [|c s IH]; intros i; simpl; [done|].
  destruct (decide (c = 62%N)); [done|].
  destruct (find_gt s) as [j|]; simpl; [|done].
  intros [= <-]. by rewrite (IH j).
Qed.

(** Without a closing bracket nothing is removed. *)
Lemma sub_tags_no_gt (n : nat) (s : str) : find_gt s = None → sub_tags n s = s.
Proof.
  revert s. induction n as [|n IH]; intros s; [done|].
  destruct s as [|c s]; simpl; [done|].
  destruct (decide (c = 62%N)); [done|].
  destruct (find_gt s) eqn:E; simpl; [done|]. intros _.
  destruct (decide (c = 60%N)); by rewrite IH.
Qed.

(** Without an opening bracket nothing is removed. *)
Lemma sub_tags_no_lt (n : nat) (s : str) : 60%N ∉ s → sub_tags n s = s.
Proof.
  revert s. induction n as [|n IH]; intros s; [done|].
  destruct s as [|c s]; simpl; [done|].
  intros [Hc Hs]%not_elem_of_cons.
  rewrite decide_False by done. by rewrite IH.
Qed.

Lemma has_tag_cons (c : N) (s : str) :
  has_tag (c :: s) = tag_here (c :: s) || has_tag s.
Proof. done. Qed.

(** After the substitution the pattern matches nowhere. *)
Lemma sub_tags_no_tag (n : nat) (s : str) :
  (length s ≤ n)%nat → has_tag (sub_tags n s) = false.
Proof.
  revert s. induction n as [|n IH]; intros s Hlen.
  { destruct s; [done | simpl in Hlen; lia]. }
  destruct s as [|c s]; [done|]. simpl in Hlen.
  cbn [sub_tags]. destruct (decide (c = 60%N)) as [->|Hc].
  - destruct (find_gt s) as [[|k]|] eqn:Hg.
    + pose proof (IH s ltac:(lia)) as Hrec.
      apply find_gt_zero in Hg as [s' ->].
      destruct n as [|n]; [simpl in Hlen; lia|].
      cbn [sub_tags] in *. rewrite decide_False in * by done.
      rewrite has_tag_cons, Hrec, orb_false_r.
      cbn [tag_here find_gt]. rewrite decide_True by done. apply andb_false_r.
    + apply IH. rewrite length_drop. lia.
    + rewrite has_tag_cons, IH, orb_false_r by lia.
      cbn [tag_here]. rewrite sub_tags_no_gt by done. rewrite Hg. apply andb_false_r.
  - rewrite has_tag_cons, IH, orb_false_r by lia.
    cbn [tag_here]. by rewrite bool_decide_eq_false_2.
Qed.

Lemma has_tag_app_r (a m : str) : has_tag (a ++ m) = false → has_tag m = false.
Proof.
  induction a as [|x a IH]; [done|].
  rewrite <- app_comm_cons, has_tag_cons. intros [_ H]%orb_false_elim. by apply IH.
Qed.

Lemma has_tag_app_l (m b : str) : has_tag (m ++ b) = false → has_tag m = false.
Proof.
  induction m as [|x m IH]; [done|].
  rewrite <- app_comm_cons, !has_tag_cons. intros [Hhere H]%orb_false_elim.
  rewrite (IH H), orb_false_r.
  cbn [tag_here] in *. destruct (bool_decide (x = 60%N)); [|done]. simpl in *.
  destruct (find_gt m) as [[|k]|] eqn:Hg; [done| |done].
  by rewrite (find_gt_app _ _ _ Hg) in Hhere.
Qed.

Lemma lstrip_suffix (s : str) : ∃ a, s = a ++ lstrip s.
Proof.
  induction s as [|c s [a IH]]; simpl; [by exists []|].
  destruct (isspace c); [|by exists []].
  exists (c :: a). simpl. by rewrite <- IH.
Qed.

(** What [strip] returns is a stretch of the text it is given. *)
Lemma strip_infix (s : str) : ∃ a b, s = a ++ strip s ++ b.
Proof.
  unfold strip. destruct (lstrip_suffix s) as [a Ha].
  destruct (lstrip_suffix (reverse (lstrip s))) as [b Hb].
  exists a, (reverse b). rewrite <- reverse_app, <- Hb, reverse_involutive. exact Ha.
Qed.

Lemma lstrip_head (s : str) : default false (isspace <$> head (lstrip s)) = false.
Proof.
  induction s as [|c s IH]; simpl; [done|].
  destruct (isspace c) eqn:E; [exact IH | simpl; exact E].
Qed.

Lemma lstrip_last (s : str) : lstrip s = [] ∨ last (lstrip s) = last s.
Proof.
  induction s as [|c s IH]; simpl; [by left|].
  destruct (isspace c); [|by right].
  destruct IH as [->|IH]; [by left|].
  destruct s as [|x s]; [by left|]. right. by rewrite IH, (last_cons_cons c).
Qed.

(** X9.  What [_strip_html] returns holds no tag: nowhere in it is there
    an opening bracket followed by one or more characters and the next
    closing bracket.  One pass over the text is enough, a removal never
    brings the two halves of a new tag together. *)
Theorem strip_html_leaves_no_tag (text : str) : has_tag (_strip_html text) = false.
Proof.
  unfold _strip_html.
  destruct (strip_infix (sub_tags (length text) text)) as (a & b & Heq).
  pose proof (sub_tags_no_tag (length text) text ltac:(lia)) as Hno.
  rewrite Heq in Hno. by apply has_tag_app_r, has_tag_app_l in Hno.
Qed.

(** X10.  What [_strip_html] returns neither starts nor ends with white
    space. *)
Theorem strip_html_is_trimmed (text : str) : trimmed (_strip_html text) = true.
Proof.
  unfold _strip_html, trimmed, strip.
  set (t := sub_tags (length text) text).
  rewrite head_reverse, last_reverse, lstrip_head, andb_true_r.
  destruct (lstrip_last (reverse (lstrip t))) as [-> | ->]; [done|].
  by rewrite last_reverse, lstrip_head.
Qed.

(** X11.  A text that lacks the opening or the closing bracket holds no
    tag, and comes back with its surrounding white space removed and
    nothing else changed: a lone less-than or greater-than sign in a
    description is kept. *)
Theorem strip_html_plain_text (text : str) :
  60%N ∉ text ∨ 62%N ∉ text → _strip_html text = strip text.
Proof.
  unfold _strip_html. intros [Hlt|Hgt].
  - by rewrite sub_tags_no_lt.
  - rewrite sub_tags_no_gt; [done | by apply find_gt_none].
Qed.

Lemma strip_html_plain_text_witness :
  _strip_html (lit "  IBU < 20 for this one ") = lit "IBU < 20 for this one".
Proof.
  rewrite (strip_html_plain_text (lit "  IBU < 20 for this one ")).
  - vm_compute. reflexivity.
  - right. apply find_gt_none. vm_compute. reflexivity.
Defined.

End MarkupFacts.

(* ===================================================================== *)
(** * feed.py: records and their order                                     *)
(* ===================================================================== *)

Module FeedOrder.
Import Models Feed PyFacts FeedFacts.

Section order.
Context {A : Type} (key : A → list Z).

(** A list that is in order already is left as it is: elements with
    equal keys keep their places. *)
Lemma sort_by_sorted_id (l : list A) :
  StronglySorted (key_le key) l → sort_by key l = l.
Proof.
  induction 1 as [|x l Hl IH Hx]; [done|].
  cbn [sort_by foldr]. fold (sort_by key l). rewrite IH.
  destruct l as [|y l]; [done|]. simpl.
  apply Forall_cons in Hx as [Hxy _]. by rewrite Hxy.
Qed.

Lemma insert_by_after (x : A) (l1 l2 : list A) :
  (∀ y, y ∈ l1 → tuple_lt (key y) (key x) = true) →
  insert_by key x (l1 ++ l2) = l1 ++ insert_by key x l2.
Proof.
  induction l1 as [|y l1 IH]; intros Hlt; [done|]. simpl.
  rewrite (Hlt y) by (apply elem_of_cons; by left).
  f_equal. apply IH. intros z Hz. apply Hlt, elem_of_cons. by right.
Qed.

(** Elements put in front of a list, all of them with greater keys than
    the elements of the list, are sorted behind them. *)
Lemma sort_by_newer (new old : list A) :
  (∀ x y, x ∈ new → y ∈ old → tuple_lt (key y) (key x) = true) →
  sort_by key (new ++ old) = sort_by key old ++ sort_by key new.
Proof.
  induction new as [|x new IH]; intros Hlt; simpl.
  - by rewrite app_nil_r.
  - fold (sort_by key (new ++ old)). fold (sort_by key new).
    rewrite IH.
    + apply insert_by_after. intros y Hy. apply Hlt; [apply elem_of_cons; by left|].
      by rewrite <- (sort_by_perm key old).
    + intros x' y Hx' Hy. apply Hlt; [apply elem_of_cons; by right | done].
Qed.
End order.

Lemma enumerate_app {B} (start : Z) (a b : list B) :
  enumerate start (a ++ b)
  = enumerate start a ++ enumerate (start + Z.of_nat (length a)) b.
Proof.
  unfold enumerate. rewrite length_app, Nat2Z.inj_add, seqZ_app by lia.
  apply zip_with_app. rewrite length_seqZ. lia.
Qed.

Lemma parse_feed_length (now : datetime) (feed : ParsedFeed) :
  length (parse_feed now feed) = length (entries_with_audio (entries feed)).
Proof.
  rewrite parse_feed_unfold, length_fmap. unfold enumerate.
  rewrite length_zip_with, length_seqZ, (Permutation_length (sort_by_perm _ _)). lia.
Qed.

(** X12.  Every record [parse_feed] returns is made from one entry of
    the feed: its audio URL is the non-empty locator found in that entry,
    its title, publish time and description are those of the same entry
    (with the defaults for a missing title, date or summary), and its
    podcast name is the title of the feed. *)
Theorem parse_feed_records (now : datetime) (feed : ParsedFeed) :
  Forall (λ ep,
            audio_url ep ≠ [] ∧
            ∃ entry, entry ∈ entries feed ∧
              _extract_audio_url entry = Some (audio_url ep) ∧
              title ep = default (lit "Untitled") (e_title entry) ∧
              published ep = _parse_date now (published_parsed entry) ∧
              description ep = _strip_html (default [] (summary entry)) ∧
              podcast_name ep = default (lit "Unknown Podcast") (feed_title feed))
         (parse_feed now feed).
Proof.
  rewrite parse_feed_unfold. apply Forall_fmap, Forall_forall.
  intros [i [e u]] Hin. apply elem_of_zip_r in Hin.
  rewrite (sort_by_perm sort_key) in Hin. unfold entries_with_audio in Hin.
  apply list_elem_of_omap in Hin as (entry & Hentry & Hsome).
  destruct (_extract_audio_url entry) as [u'|] eqn:Hu; [|done].
  destruct (truthy (Some u')) eqn:Ht; [|done].
  injection Hsome as <- <-. simpl. split.
  - by destruct u'.
  - exists entry. by rewrite Hu.
Qed.

(** X13.  When the audio entries of the feed are listed oldest first,
    entries published at the same time included, the sort leaves them as
    they are: the records come in feed order, and entries with equal
    dates are numbered in the order of the feed. *)
Theorem parse_feed_keeps_feed_order (now : datetime) (feed : ParsedFeed) :
  StronglySorted (key_le sort_key) (entries_with_audio (entries feed)) →
  parse_feed now feed
  = episode_of now (default (lit "Unknown Podcast") (feed_title feed))
      <$> enumerate 1 (entries_with_audio (entries feed)).
Proof. intros Hs. by rewrite parse_feed_unfold, sort_by_sorted_id. Qed.

Lemma parse_feed_keeps_feed_order_witness :
  (λ ep, (number ep, title ep)) <$> parse_feed Demo.clock Cases.feed_ties
  = [(1, lit "A"); (2, lit "B, part 1"); (3, lit "B, part 2")].
Proof.
  rewrite (parse_feed_keeps_feed_order Demo.clock Cases.feed_ties).
  - vm_compute. reflexivity.
  - vm_compute. repeat constructor.
Defined.

(** X14.  Publishing new episodes does not renumber the old ones: when
    entries are put in front of the feed and each of them that has audio
    is dated after every audio entry that was there, the records of the
    old feed are the first records of the new one, numbers included, and
    the new entries are numbered after them. *)
Theorem parse_feed_new_entries (now : datetime) (feed feed' : ParsedFeed)
    (new : list Entry) :
  entries feed' = new ++ entries feed →
  feed_title feed' = feed_title feed →
  (∀ x y, x ∈ entries_with_audio new → y ∈ entries_with_audio (entries feed) →
          tuple_lt (sort_key y) (sort_key x) = true) →
  parse_feed now feed'
  = parse_feed now feed
    ++ (episode_of now (default (lit "Unknown Podcast") (feed_title feed))
          <$> enumerate (1 + Z.of_nat (length (parse_feed now feed)))
                (sort_by sort_key (entries_with_audio new))).
Proof.
  intros Hentries Htitle Hnewer.
  rewrite parse_feed_length, !parse_feed_unfold, Hentries, Htitle.
  unfold entries_with_audio at 1. rewrite omap_app.
  fold (entries_with_audio new). fold (entries_with_audio (entries feed)).
  rewrite sort_by_newer by done.
  rewrite enumerate_app, fmap_app.
  by rewrite (Permutation_length (sort_by_perm _ _)).
Qed.

Lemma parse_feed_new_entries_witness :
  number <$> parse_feed Demo.clock Cases.feed_AB = [1; 2] ∧
  take 2 (parse_feed Demo.clock Demo.feed_CAB) = parse_feed Demo.clock Cases.feed_AB ∧
  (λ ep, (number ep, title ep)) <$> drop 2 (parse_feed Demo.clock Demo.feed_CAB)
  = [(3, lit "C")].
Proof.
  rewrite (parse_feed_new_entries Demo.clock Cases.feed_AB Demo.feed_CAB
             [Demo.entry "C" (Some (Demo.stamp 2023)) (Some "https://cdn.example/c.mp3")]).
  - repeat split; vm_compute; reflexivity.
  - reflexivity.
  - reflexivity.
  - intros x y Hx Hy.
    change (x ∈ [(Demo.entry "C" (Some (Demo.stamp 2023))
                    (Some "https://cdn.example/c.mp3"),
                  lit "https://cdn.example/c.mp3")]) in Hx.
    change (y ∈ [(Demo.entry "A" (Some (Demo.stamp 2021))
                    (Some "https://cdn.example/a.mp3"),
                  lit "https://cdn.example/a.mp3");
                 (Demo.entry "B" (Some (Demo.stamp 2022))
                    (Some "https://cdn.example/b.mp3"),
                  lit "https://cdn.example/b.mp3")]) in Hy.
    apply list_elem_of_singleton in Hx as ->.
    apply elem_of_cons in Hy as [->|Hy]; [reflexivity|].
    apply list_elem_of_singleton in Hy as ->. reflexivity.
Defined.

(** X15.  The first enclosure with an audio type decides: its [href],
    or else its [url], is the answer, whatever the enclosures after it
    and the links hold, also when it carries neither and the answer is
    none.  When no enclosure has an audio type, the answer is the address
    of the first link that is marked as an enclosure and has a non-empty
    address, whatever the links after it hold; and when there is no such
    link either, the answer is none. *)
Theorem extract_audio_url_priority (entry : Entry) :
  (∀ before enc after,
     enclosures entry = before ++ enc :: after →
     Forall (λ x, startswith (default [] (enc_type x)) (lit "audio/") = false) before →
     startswith (default [] (enc_type enc)) (lit "audio/") = true →
     _extract_audio_url entry = or_else (enc_href enc) (enc_url enc)) ∧
  (∀ before link after,
     Forall (λ x, startswith (default [] (enc_type x)) (lit "audio/") = false)
       (enclosures entry) →
     links entry = before ++ link :: after →
     Forall (λ l, rel l ≠ Some (lit "enclosure") ∨ truthy (href l) = false) before →
     rel link = Some (lit "enclosure") → truthy (href link) = true →
     _extract_audio_url entry = href link) ∧
  (Forall (λ x, startswith (default [] (enc_type x)) (lit "audio/") = false)
     (enclosures entry) →
   Forall (λ l, rel l ≠ Some (lit "enclosure") ∨ truthy (href l) = false)
     (links entry) →
   _extract_audio_url entry = None).
Proof.
  assert (∀ encs,
            Forall (λ x, startswith (default [] (enc_type x)) (lit "audio/") = false)
              encs →
            first_audio_enclosure encs = None) as Hnone.
  { intros encs H. induction H as [|x l Hx _ IH]; simpl; [done|]. by rewrite Hx. }
  assert (∀ l : Link,
            rel l ≠ Some (lit "enclosure") ∨ truthy (href l) = false →
            bool_decide (rel l = Some (lit "enclosure")) && truthy (href l) = false)
    as Hskip.
  { intros l [Hrel| ->]; [|apply andb_false_r].
    by rewrite bool_decide_eq_false_2. }
  unfold _extract_audio_url. split; [|split].
  - intros before enc after -> Hbefore Henc.
    assert (first_audio_enclosure (before ++ enc :: after) = Some enc) as ->; [|done].
    induction Hbefore as [|x before Hx _ IH]; simpl; [by rewrite Henc|].
    by rewrite Hx.
  - intros before link after Hencs -> Hbefore Hrel Hhref.
    rewrite (Hnone _ Hencs).
    induction Hbefore as [|l before Hl _ IH]; simpl.
    + by rewrite bool_decide_eq_true_2, Hhref.
    + by rewrite (Hskip l Hl).
  - intros Hencs Hlinks. rewrite (Hnone _ Hencs).
    induction Hlinks as [|l ls Hl _ IH]; simpl; [done|].
    by rewrite (Hskip l Hl).
Qed.

End FeedOrder.

(* ===================================================================== *)
(** * state.py and config.py                                               *)
(* ===================================================================== *)

Module LedgerFacts.
Import State Ledger StateFacts.

Lemma is_processed_lookup (sm : StateManager) (n : Z) :
  is_processed sm n = true ↔ is_Some (_state sm !! str_of_int n).
Proof. unfold is_processed. apply bool_decide_eq_true. Qed.

Lemma mark_each_cons sm d m marks :
  mark_each sm d (m :: marks)
  = mark_each (mark_processed sm m.1 m.2.1.1 m.2.1.2 m.2.2 d).1
      (mark_processed sm m.1 m.2.1.1 m.2.1.2 m.2.2 d).2 marks.
Proof. done. Qed.

(** X16.  After a series of [mark_processed] calls the manager reports
    as processed the episodes it reported before and the ones that were
    marked, and no other; the count has grown by the number of calls
    when these were for different episodes, none of them marked before;
    the ledger file holds the document of the manager, and no other
    file was written. *)
Theorem mark_each_ledger (sm : StateManager) (d : disk)
    (marks : list (Z * (str * str * str))) :
  let r := mark_each sm d marks in
  (∀ n, is_processed r.1 n = true ↔ is_processed sm n = true ∨ n ∈ marks.*1) ∧
  (NoDup marks.*1 → (∀ n, n ∈ marks.*1 → is_processed sm n = false) →
   get_processed_count r.1 = (get_processed_count sm + length marks)%nat) ∧
  (marks ≠ [] → r.2 !! state_file sm = Some (_state r.1)) ∧
  (∀ file, file ≠ state_file sm → r.2 !! file = d !! file).
Proof.
  revert sm d. induction marks as [|m marks IH]; intros sm d.
  { simpl. split; [|split; [|split]].
    - intros n. split; [by left|]. intros [H|H]; [done|]. by apply elem_of_nil in H.
    - intros _ _. lia.
    - done.
    - done. }
  rewrite mark_each_cons. cbn zeta.
  set (sm1 := (mark_processed sm m.1 m.2.1.1 m.2.1.2 m.2.2 d).1).
  set (d1 := (mark_processed sm m.1 m.2.1.1 m.2.1.2 m.2.2 d).2).
  destruct (IH sm1 d1) as (Hmarked & Hcount & Hfile & Hother).
  assert (state_file sm1 = state_file sm) as Hsf by done.
  assert (∀ n, is_processed sm1 n = true ↔ is_processed sm n = true ∨ n = m.1)
    as Hstep.
  { intros n. rewrite !is_processed_lookup. unfold sm1, mark_processed. simpl.
    rewrite lookup_insert_is_Some. split.
    - intros [Heq|[_ H]]; [right; symmetry; by apply str_of_int_inj | by left].
    - intros [H| ->]; [|by left].
      destruct (decide (str_of_int m.1 = str_of_int n)); [by left | by right]. }
  split; [|split; [|split]].
  - intros n. rewrite Hmarked, Hstep, fmap_cons, elem_of_cons. tauto.
  - rewrite fmap_cons. intros [Hfresh Hnd]%NoDup_cons Hnew.
    rewrite Hcount; [|done|].
    + unfold get_processed_count, sm1, mark_processed. simpl.
      rewrite map_size_insert_None; [lia|].
      specialize (Hnew m.1 ltac:(apply elem_of_cons; by left)).
      destruct (_state sm !! str_of_int m.1) eqn:E; [|done].
      exfalso. assert (is_processed sm m.1 = true) as Ht
        by (apply is_processed_lookup; rewrite E; eauto).
      congruence.
    + intros n Hn.
      destruct (is_processed sm1 n) eqn:E; [|done]. exfalso.
      apply Hstep in E as [E| ->]; [|done].
      rewrite Hnew in E; [done|]. apply elem_of_cons. by right.
  - intros _. rewrite Hsf in Hfile.
    destruct marks as [|m' marks']; [|by apply Hfile].
    unfold mark_each. simpl. unfold _save. simpl. apply lookup_insert_eq.
  - intros file Hne. rewrite Hother by (by rewrite Hsf).
    unfold d1, mark_processed, _save. simpl. by rewrite lookup_insert_ne.
Qed.

End LedgerFacts.

Module ConfigFacts.
Import Config.

Lemma truthy_default (o : option str) :
  truthy o = true → o = Some (default [] o) ∧ default [] o ≠ [].
Proof. by destruct o as [[|c s]|]. Qed.

(** X17.  A call of [load_config] with the feed override alone either
    raises [ValueError], and then one of the five required variables is
    unset or empty, or returns a configuration whose credentials are the
    non-empty values of the environment.  The feed URL is the override
    when one is given and not empty, else the value of the environment;
    the override does not stand in for a missing [RSS_FEED_URL], which
    is required either way.  The temporary directory is the one of the
    environment, or the default. *)
Theorem load_config_outcome (env : environ) (o : option str) :
  match load_config env [("feed_url_override"%string, o)] with
  | Ok c =>
      env !! lit "OPENAI_API_KEY" = Some (openai_api_key c) ∧ openai_api_key c ≠ [] ∧
      env !! lit "ANTHROPIC_API_KEY" = Some (anthropic_api_key c)
        ∧ anthropic_api_key c ≠ [] ∧
      env !! lit "NOTION_API_KEY" = Some (notion_api_key c) ∧ notion_api_key c ≠ [] ∧
      env !! lit "NOTION_DATABASE_ID" = Some (notion_database_id c)
        ∧ notion_database_id c ≠ [] ∧
      truthy (env !! lit "RSS_FEED_URL") = true ∧
      rss_feed_url c = (if truthy o then default [] o
                        else default [] (env !! lit "RSS_FEED_URL")) ∧
      rss_feed_url c ≠ [] ∧
      temp_dir c = default (lit "/tmp/podscriber") (env !! lit "TEMP_DIR")
  | Raise e =>
      e = ValueError ∧
      ∃ k, k ∈ required_keys ∧ truthy (env !! lit k) = false
  end.
Proof.
  change (load_config env [("feed_url_override"%string, o)])
    with (load_config_body env o).
  unfold load_config_body. destruct (missing env) as [|k ks] eqn:Hm.
  - unfold missing, required_keys in Hm. simpl in Hm.
    destruct (truthy (env !! lit "OPENAI_API_KEY")) eqn:H1; [|done].
    destruct (truthy (env !! lit "ANTHROPIC_API_KEY")) eqn:H2; [|done].
    destruct (truthy (env !! lit "NOTION_API_KEY")) eqn:H3; [|done].
    destruct (truthy (env !! lit "NOTION_DATABASE_ID")) eqn:H4; [|done].
    destruct (truthy (env !! lit "RSS_FEED_URL")) eqn:H5; [|done].
    apply truthy_default in H1 as [? ?], H2 as [? ?], H3 as [? ?], H4 as [? ?].
    cbn [openai_api_key anthropic_api_key notion_api_key notion_database_id
         rss_feed_url temp_dir].
    repeat (split; [done|]). unfold Feed.or_else.
    split; [by destruct (truthy o)|]. split; [|done].
    destruct (truthy o) eqn:Ho; by apply truthy_default.
  - split; [done|]. exists k.
    assert (In k (missing env)) as Hin by (rewrite Hm; by left).
    apply filter_In in Hin as [Hin Hk]. apply negb_true_iff in Hk.
    split; [by apply list_elem_of_In | done].
Qed.

End ConfigFacts.

(* ===================================================================== *)
(** * notion_writer.py: properties and layout                              *)
(* ===================================================================== *)

Module PageFacts.
Import Models NotionWriter Layout NotionFacts.

(** The loop over the optional properties adds the ones the database
    has. *)
Lemma optional_lookup (existing : gset str) (optional : list (str * prop))
    (props : gmap str prop) (k : str) :
  is_Some (foldl (λ (props : gmap str prop) (kv : str * prop),
                    if decide (kv.1 ∈ existing) then <[kv.1 := kv.2]> props else props)
                 props optional !! k)
  ↔ is_Some (props !! k) ∨ (k ∈ existing ∧ k ∈ optional.*1).
Proof.
  revert props. induction optional as [|[key v] optional IH]; intros props; simpl.
  - split; [by left|]. intros [H|[_ H]]; [done|]. by apply elem_of_nil in H.
  - rewrite IH, elem_of_cons. destruct (decide (key ∈ existing)) as [Hin|Hout].
    + rewrite lookup_insert_is_Some. split.
      * intros [[->|[_ H]]|[H1 H2]]; auto.
      * intros [H|[H1 [->|H2]]]; auto.
        destruct (decide (key = k)); auto.
    + split.
      * intros [H|[H1 H2]]; auto.
      * intros [H|[H1 [->|H2]]]; auto. done.
Qed.

Lemma optional_none (optional : list (str * prop)) (props : gmap str prop) :
  foldl (λ (props : gmap str prop) (kv : str * prop),
           if decide (kv.1 ∈ (∅ : gset str)) then <[kv.1 := kv.2]> props else props)
        props optional = props.
Proof.
  induction optional as [|kv optional IH]; [done|]. cbn [foldl].
  destruct (decide (kv.1 ∈ (∅ : gset str))) as [Hin|_]; [|exact IH].
  by apply not_elem_of_empty in Hin.
Qed.

Lemma build_properties_empty (strip : str → str) (now : datetime) (episode : Episode) :
  _build_properties strip now episode ∅
  = {[ lit "Name" :=
         p_title (truncated (lit "[Ep. " ++ str_of_int (number episode)
                             ++ lit "] " ++ _clean_title strip (title episode))) ]}.
Proof. unfold _build_properties. apply optional_none. Qed.

(** X18.  The properties of a page are [Name], always, and those of the
    five optional properties that the database has: no property is sent
    that the database is not known to have. *)
Theorem build_properties_keys (strip : str → str) (now : datetime)
    (episode : Episode) (existing : gset str) (k : str) :
  is_Some (_build_properties strip now episode existing !! k)
  ↔ k = lit "Name" ∨ (k ∈ existing ∧ k ∈ optional_names).
Proof.
  unfold _build_properties. rewrite optional_lookup.
  rewrite lookup_singleton_is_Some. cbn [fmap list_fmap fst].
  unfold optional_names. split; intros [H|H]; auto.
Qed.

(** X19.  When the update of the database schema fails, the page is
    created all the same, with the [Name] property alone. *)
Theorem schema_failure_sends_name_only (strip : str → str) (now : datetime)
    (notion : Client) (episode : Episode) (insights : BrewingInsights)
    (database_id : str) (e : exn) :
  databases_update notion database_id = Raise e →
  ∃ children rest,
    (create_episode_page strip now notion episode insights database_id).2
    = PagesCreate database_id
        {[ lit "Name" :=
             p_title (truncated (lit "[Ep. " ++ str_of_int (number episode)
                                 ++ lit "] " ++ _clean_title strip (title episode))) ]}
        children :: rest.
Proof.
  intros Hfail. unfold create_episode_page, _ensure_database_properties.
  rewrite Hfail. cbv zeta. rewrite build_properties_empty.
  destruct (pages_create _ _ _ _) as [[page_id url]|e']; [|by eauto].
  destruct (append_batches _ _ _ _ _) as [r calls]. by eauto.
Qed.

Lemma schema_failure_sends_name_only_witness :
  ∃ children rest,
    (create_episode_page (λ t, t) Demo.clock Cases.notion_no_schema Demo.episode1
       Demo.long_insights (lit "db")).2
    = PagesCreate (lit "db")
        {[ lit "Name" :=
             p_title (truncated (lit "[Ep. " ++ str_of_int (number Demo.episode1)
                                 ++ lit "] "
                                 ++ _clean_title (λ t, t) (title Demo.episode1))) ]}
        children :: rest.
Proof.
  apply (schema_failure_sends_name_only _ _ Cases.notion_no_schema _ _ _ NotionError).
  reflexivity.
Defined.

Lemma bulleted_list_no_heading (items : list str) (empty_text : str) :
  List.filter is_heading2 (_bulleted_list items empty_text) = [].
Proof.
  unfold _bulleted_list. destruct items as [|x items]; [by destruct empty_text|].
  generalize (x :: items). intros l. induction l as [|y l IH]; [done|]. exact IH.
Qed.

Lemma recipes_no_heading (rs : list RecipeEntry) :
  List.filter is_heading2 (rs ≫= _recipe_blocks) = [].
Proof.
  induction rs as [|r rs IH]; [done|].
  cbn [mbind list_bind]. fold (rs ≫= _recipe_blocks).
  rewrite List.filter_app, IH, app_nil_r.
  unfold _recipe_blocks. cbn [List.filter is_heading2 _heading3].
  apply bulleted_list_no_heading.
Qed.

(** X20.  Whatever the insights hold, the page opens with the summary
    callout and shows the same five sections in the same order: a
    section without items gets its placeholder, never loses its
    heading. *)
Theorem build_blocks_sections (episode : Episode) (insights : BrewingInsights) :
  head (_build_blocks episode insights)
  = Some (callout beer (truncated (episode_summary insights))) ∧
  List.filter is_heading2 (_build_blocks episode insights)
  = [heading_2 (lit "Brewing Techniques"); heading_2 (lit "Recipes");
     heading_2 (lit "Ingredients & Products Mentioned");
     heading_2 (lit "Business & Marketing Insights");
     heading_2 (lit "Key Takeaways")].
Proof.
  split; [done|]. unfold _build_blocks.
  destruct (recipes insights) as [|r rs];
    rewrite !List.filter_app, !bulleted_list_no_heading, ?recipes_no_heading;
    vm_compute; reflexivity.
Qed.

End PageFacts.

(* ===================================================================== *)
(** * extractor.py: the response                                           *)
(* ===================================================================== *)

Module ResponseFacts.
Import Models Extractor Response.

Lemma next_tool_use_first (before after : list ContentBlock) (data : gmap str json) :
  forallb is_text before = true →
  next_tool_use (before ++ ToolUseBlock data :: after) = Ok data.
Proof.
  induction before as [|b before IH]; simpl; [done|].
  intros [Hb Hrest]%andb_true_iff. destruct b; [by apply IH | done].
Qed.

Lemma next_tool_use_none (content : list ContentBlock) :
  forallb is_text content = true → next_tool_use content = Raise StopIteration.
Proof.
  induction content as [|b content IH]; simpl; [done|].
  intros [Hb Hrest]%andb_true_iff. destruct b; [by apply IH | done].
Qed.

Lemma mapM_fails {A B} (f : A → result B) (l : list A) (x : A) :
  x ∈ l → is_ok (f x) = false → is_ok (mapM f l) = false.
Proof.
  induction l as [|y l IH]; intros Hin Hx; [by apply elem_of_nil in Hin|].
  simpl. apply elem_of_cons in Hin as [<-|Hin].
  - by destruct (f x).
  - destruct (f y); [|done]. simpl.
    specialize (IH Hin Hx). by destruct (mapM f l).
Qed.

(** X21.  The insights are read from the first tool-use block of the
    response, whatever blocks come after it; a response without a
    tool-use block makes [extract_insights] raise [StopIteration]. *)
Theorem extract_insights_tool_block (claude : str → result (list ContentBlock))
    (transcript episode_title episode_description : str)
    (content : list ContentBlock) :
  claude (user_message transcript episode_title episode_description) = Ok content →
  (∀ before data after,
     content = before ++ ToolUseBlock data :: after →
     forallb is_text before = true →
     extract_insights claude transcript episode_title episode_description
     = insights_of_data data) ∧
  (forallb is_text content = true →
   extract_insights claude transcript episode_title episode_description
   = Raise StopIteration).
Proof.
  intros Hresponse. unfold extract_insights. rewrite Hresponse. simpl. split.
  - intros before data after -> Hbefore. by rewrite next_tool_use_first.
  - intros Hnone. by rewrite next_tool_use_none.
Qed.

Lemma extract_insights_tool_block_witness :
  extract_insights Cases.chatty (lit "welcome to the show") (lit "A") (lit "notes")
  = insights_of_data Demo.partial_input.
Proof.
  destruct (extract_insights_tool_block Cases.chatty (lit "welcome to the show")
              (lit "A") (lit "notes") _ eq_refl) as [Hfirst _].
  apply (Hfirst [TextBlock (lit "Here are the insights.")] Demo.partial_input
           [ToolUseBlock ∅]); reflexivity.
Defined.

(** X22.  One recipe that is not an object, or has no name, makes the
    whole extraction fail, valid recipes and other fields
    notwithstanding. *)
Theorem invalid_recipe_fails (data : gmap str json) (rs : list json) (r : json) :
  data !! lit "recipes" = Some (JArr rs) →
  r ∈ rs →
  (∀ m, r = JObj m → m !! lit "name" = None) →
  is_ok (insights_of_data data) = false.
Proof.
  intros Hrs Hin Hbad. unfold insights_of_data, get. rewrite Hrs. simpl.
  assert (is_ok (mapM recipe_entry rs) = false) as Hfail.
  { apply (mapM_fails _ _ r Hin). destruct r as [| | | | |m]; try done.
    simpl. by rewrite (Hbad m eq_refl). }
  by destruct (mapM recipe_entry rs).
Qed.

Lemma invalid_recipe_fails_witness :
  is_ok (insights_of_data Cases.nameless_recipe) = false.
Proof.
  apply (invalid_recipe_fails Cases.nameless_recipe
           [JObj {[ lit "name" := JStr (lit "House IPA") ]};
            JObj {[ lit "style" := JStr (lit "Stout") ]}]
           (JObj {[ lit "style" := JStr (lit "Stout") ]})).
  - vm_compute. reflexivity.
  - apply elem_of_cons. right. apply elem_of_cons. by left.
  - intros m [= <-]. vm_compute. reflexivity.
Defined.

(** X23.  A key of the tool input other than the six that are read plays
    no part: adding it, whatever its value, changes neither whether the
    extraction succeeds nor the insights. *)
Theorem insights_ignore_unknown_keys (data : gmap str json) (k : str) (v : json) :
  k ∉ known_keys → insights_of_data (<[k := v]> data) = insights_of_data data.
Proof.
  unfold known_keys. rewrite !not_elem_of_cons.
  intros (H1 & H2 & H3 & H4 & H5 & H6 & _).
  unfold insights_of_data, get. by rewrite !lookup_insert_ne by done.
Qed.

Lemma insights_ignore_unknown_keys_witness :
  insights_of_data (<[lit "confidence" := JNum 9]> Demo.partial_input)
  = insights_of_data Demo.partial_input.
Proof.
  apply (insights_ignore_unknown_keys Demo.partial_input (lit "confidence") (JNum 9)).
  unfold known_keys. rewrite !not_elem_of_cons.
  repeat split; try (by vm_compute). apply not_elem_of_nil.
Defined.

End ResponseFacts.

(* ===================================================================== *)
(** * main.py: the files and the calls of one episode                      *)
(* ===================================================================== *)

Module PipelineFacts.
Import Models Main PyFacts AudioFacts ProcessFacts ProcessEpisode.

(** The retry loop writes at its destination only. *)
Lemma download_attempts_frame sv url dest attempts files r files' q :
  Audio.download_attempts sv url dest attempts files = (r, files') →
  q ≠ dest → files' !! q = files !! q.
Proof.
  intros H Hq. revert files H.
  induction attempts as [|k rest IH]; intros files; cbn [Audio.download_attempts].
  - by intros [= <- <-].
  - assert (∀ partial : option Audio.file,
              match partial with
              | Some f => <[dest := f]> (delete dest files)
              | None => delete dest files
              end !! q = files !! q) as Hpartial.
    { intros [f|]; by rewrite ?lookup_insert_ne, lookup_delete_ne by done. }
    destruct (Audio.http_get sv url k) as [f|e partial].
    + intros [= <- <-]. by rewrite lookup_insert_ne, lookup_delete_ne by done.
    + destruct (Audio.retried e) as [[|]|raised];
        [|intros [= <- <-]; apply Hpartial ..].
      destruct (decide (k = Audio._DOWNLOAD_RETRIES));
        [intros [= <- <-]; apply Hpartial|].
      intros H. rewrite (IH _ H). apply Hpartial.
Qed.

(** A split that returned has touched the file it was given and the
    chunks it returns, and no other file. *)
Lemma split_frame sv p files paths files' q :
  Audio.split_audio_if_needed sv p files = (Ok paths, files') →
  q ≠ p → q ∉ paths → files' !! q = files !! q.
Proof.
  unfold Audio.split_audio_if_needed.
  destruct (files !! p) as [f|]; [|done].
  destruct (Audio.st_size f <=? Audio.WHISPER_MAX_BYTES); [by intros [= <- <-]|].
  destruct (Audio.pydub sv) as [cd|]; [|done].
  destruct (Audio.can_decode cd f); [|done].
  destruct (Audio.with_suffix_empty p) as [base|]; [|done].
  destruct (Audio.export_chunks _ _ _ _ _ _) as [[chunks|e] fs1] eqn:Hexp; [|done].
  destruct (fs1 !! p); [|done].
  intros [= <- <-] Hq Hout. rewrite lookup_delete_ne by done.
  eapply export_chunks_frame; [exact Hexp|].
  by rewrite (export_chunks_paths _ _ _ _ _ _ _ _ Hexp) in Hout.
Qed.

(** X24.  When download and split have returned, the run of the episode
    leaves the temporary directory as it found it, less the downloaded
    file and the chunks: whether transcription, extraction and
    publication succeed or fail, these are removed, and every other file
    is as it was before. *)
Theorem process_episode_restores_files (w : World) (ep : Episode)
    (config : Config.Config) (s : Store) raw_path fs1 audio_paths fs2 :
  Audio.download_audio (audio_services w) (audio_url ep)
    (Config.temp_dir config) (number ep) (fs s) = (Ok raw_path, fs1) →
  Audio.split_audio_if_needed (audio_services w) raw_path fs1
    = (Ok audio_paths, fs2) →
  ∀ q, fs (_process_episode w config s ep) !! q
       = if decide (q = raw_path ∨ q ∈ audio_paths) then None else fs s !! q.
Proof.
  intros Hd Hs q.
  destruct (process_episode_cleans_after_split w ep config s _ _ _ _ Hd Hs)
    as [Hraw Hchunks].
  destruct (decide (q = raw_path ∨ q ∈ audio_paths)) as [[->|Hin]|Hout];
    [done | by apply Hchunks |].
  apply Decidable.not_or in Hout as [Hne Hnotin].
  destruct (try_block_after_split w ep config s _ _ _ _ Hd Hs) as [Hpaths Hfs].
  assert (fs (_process_episode w config s ep) !! q = fs2 !! q) as ->.
  { unfold _process_episode.
    destruct (try_block w ep config s) as [[paths r] s']. simpl in Hpaths, Hfs.
    subst paths. destruct audio_paths as [|a rest]; [by rewrite Hfs|].
    cbn [fs]. by rewrite cleanup_audio_lookup, decide_False, Hfs. }
  rewrite (split_frame _ _ _ _ _ _ Hs Hne Hnotin).
  apply (download_attempts_frame _ _ _ _ _ _ _ _ Hd).
  unfold Audio.download_audio in Hd.
  by destruct (download_attempts_written _ _ _ _ _ _ _ Hd) as [<- _].
Qed.

Lemma process_episode_restores_files_witness :
  let w := Demo.world Demo.big true Demo.notion_down in
  let after := fs (_process_episode w Demo.config Cases.store_with_notes Demo.episode1) in
  after !! Demo.path = None ∧ after !! Cases.chunk 0 = None ∧
  after !! Cases.notes = Some Demo.small.
Proof.
  cbv zeta.
  set (w := Demo.world Demo.big true Demo.notion_down).
  set (d := Audio.download_audio (audio_services w) (audio_url Demo.episode1)
              (Config.temp_dir Demo.config) (number Demo.episode1)
              (fs Cases.store_with_notes)).
  set (c := Audio.split_audio_if_needed (audio_services w) Demo.path d.2).
  assert (d = (Ok Demo.path, d.2)) as Hd
    by (apply DownloadFacts.pair_of_fst; vm_compute; reflexivity).
  assert (c = (Ok [Cases.chunk 0], c.2)) as Hc
    by (apply DownloadFacts.pair_of_fst; vm_compute; reflexivity).
  pose proof (process_episode_restores_files w Demo.episode1 Demo.config
                Cases.store_with_notes Demo.path d.2 [Cases.chunk 0] c.2 Hd Hc) as H.
  split; [|split]; (etransitivity; [apply H | vm_compute; reflexivity]).
Defined.

(** X25.  No call is made to the publication service unless download,
    split, transcription and extraction have all returned; and when they
    have, the calls made are those of [create_episode_page] on the
    extracted insights. *)
Theorem no_publication_before_extraction (w : World) (config : Config.Config)
    (s : Store) (ep : Episode) :
  notion_calls (_process_episode w config s ep) = notion_calls s ∨
  ∃ raw_path fs1 audio_paths fs2 transcript insights,
    Audio.download_audio (audio_services w) (audio_url ep)
      (Config.temp_dir config) (number ep) (fs s) = (Ok raw_path, fs1) ∧
    Audio.split_audio_if_needed (audio_services w) raw_path fs1
      = (Ok audio_paths, fs2) ∧
    Transcriber.transcribe (whisper w) audio_paths fs2 = Ok transcript ∧
    Extractor.extract_insights (claude w) transcript (title ep) (description ep)
      = Ok insights ∧
    notion_calls (_process_episode w config s ep)
    = notion_calls s
      ++ (NotionWriter.create_episode_page (strip_episode_prefix w) (now w)
            (notion w) ep insights (Config.notion_database_id config)).2.
Proof.
  destruct (process_episode_ledger_of_try w ep config s) as (_ & _ & ->).
  unfold try_block.
  destruct (Audio.download_audio _ _ _ _ _) as [[raw_path|e] fs1] eqn:Hd;
    [|by left].
  destruct (Audio.split_audio_if_needed _ _ _) as [[audio_paths|e] fs2] eqn:Hs;
    [|by left].
  destruct (Transcriber.transcribe _ _ _) as [transcript|e] eqn:Ht; [|by left].
  destruct (Extractor.extract_insights _ _ _ _) as [insights|e] eqn:He; [|by left].
  right. exists raw_path, fs1, audio_paths, fs2, transcript, insights.
  repeat (split; [done|]).
  destruct (NotionWriter.create_episode_page _ _ _ _ _ _) as [[u|e] calls]; [|done].
  by unfold State.mark_processed.
Qed.

End PipelineFacts.

(* ===================================================================== *)
(** * main.py: the run                                                     *)
(* ===================================================================== *)

Module BatchFacts.
Import Models Main Isolation PyFacts AudioFacts ProcessFacts StateFacts SelectionFacts.

(** ** The outcome of an episode does not depend on the store *)

(** Whether the retry loop returns, and the file it then leaves at the
    destination, do not depend on the files that were there. *)
Lemma download_attempts_indep sv url dest attempts (files files0 : Audio.fsys) :
  (Audio.download_attempts sv url dest attempts files).1
  = (Audio.download_attempts sv url dest attempts files0).1 ∧
  (is_ok (Audio.download_attempts sv url dest attempts files).1 = true →
   (Audio.download_attempts sv url dest attempts files).2 !! dest
   = (Audio.download_attempts sv url dest attempts files0).2 !! dest).
Proof.
  revert files files0.
  induction attempts as [|k rest IH]; intros files files0;
    cbn [Audio.download_attempts].
  - done.
  - destruct (Audio.http_get sv url k) as [f|e partial].
    + cbn [fst snd]. by rewrite !lookup_insert_eq.
    + destruct (Audio.retried e) as [[|]|raised]; [|done|done].
      destruct (decide (k = Audio._DOWNLOAD_RETRIES)); [done|]. apply IH.
Qed.

Section export_indep.
Context (cd : Audio.Codec) (audio : list Z) (base : Audio.Path).

(** Whether the export loop returns does not depend on the files that
    were there, and when it returns, neither do the chunks it wrote. *)
Lemma export_chunks_indep starts acc (files files0 : Audio.fsys) :
  (Audio.export_chunks cd audio base starts acc files).1
  = (Audio.export_chunks cd audio base starts acc files0).1 ∧
  (is_ok (Audio.export_chunks cd audio base starts acc files).1 = true →
   ∀ q, files !! q = files0 !! q
        ∨ q ∈ ((λ x, Audio.chunk_path base x.1) <$> starts) →
        (Audio.export_chunks cd audio base starts acc files).2 !! q
        = (Audio.export_chunks cd audio base starts acc files0).2 !! q).
Proof.
  revert acc files files0.
  induction starts as [|[i start] rest IH]; intros acc files files0; simpl.
  - split; [done|]. intros _ q [H|H]; [done | by apply elem_of_nil in H].
  - destruct (Audio.export_size cd _) as [sz|]; [|done].
    destruct (IH (acc ++ [Audio.chunk_path base i])
                (<[Audio.chunk_path base i :=
                     {| Audio.st_size := sz;
                        Audio.frames := slice audio (Some start)
                                          (Some (start + Audio.chunk_ms)) |}]> files)
                (<[Audio.chunk_path base i :=
                     {| Audio.st_size := sz;
                        Audio.frames := slice audio (Some start)
                                          (Some (start + Audio.chunk_ms)) |}]> files0))
      as [Hr Hq].
    split; [done|]. intros Hok q Hcase. apply (Hq Hok).
    destruct (decide (q = Audio.chunk_path base i)) as [->|Hne].
    + left. by rewrite !lookup_insert_eq.
    + destruct Hcase as [H|H].
      * left. by rewrite !lookup_insert_ne.
      * right. by apply elem_of_cons in H as [?|?].
Qed.
End export_indep.

(** Whether the split returns, what it returns and the files it
    returns depend on the file it is given only. *)
Lemma split_indep sv p (files files0 : Audio.fsys) :
  files !! p = files0 !! p →
  (Audio.split_audio_if_needed sv p files).1
  = (Audio.split_audio_if_needed sv p files0).1 ∧
  ∀ paths, (Audio.split_audio_if_needed sv p files).1 = Ok paths →
    ∀ q, q ∈ paths →
      (Audio.split_audio_if_needed sv p files).2 !! q
      = (Audio.split_audio_if_needed sv p files0).2 !! q.
Proof.
  intros Hp. unfold Audio.split_audio_if_needed. rewrite <- Hp.
  destruct (files !! p) as [f|] eqn:E; [|done].
  destruct (Audio.st_size f <=? Audio.WHISPER_MAX_BYTES).
  { split; [done|]. intros paths [= <-] q ->%list_elem_of_singleton. simpl. congruence. }
  destruct (Audio.pydub sv) as [cd|]; [|done].
  destruct (Audio.can_decode cd f); [|done].
  destruct (Audio.with_suffix_empty p) as [base|] eqn:Hbase; [|done].
  destruct (export_chunks_indep cd (Audio.frames f) base
              (enumerate 0 (range 0 (Z.of_nat (length (Audio.frames f))) Audio.chunk_ms))
              [] files files0) as [Hr Hq].
  destruct (Audio.export_chunks _ _ _ _ _ files) as [[chunks|e] fs1] eqn:E1;
    destruct (Audio.export_chunks _ _ _ _ _ files0) as [[chunks0|e0] fs10] eqn:E0;
    simpl in Hr, Hq; try done.
  injection Hr as <-. specialize (Hq eq_refl).
  rewrite <- (Hq p) by (left; congruence).
  destruct (fs1 !! p); [|done].
  split; [done|]. intros paths [= <-] q Hin. simpl.
  rewrite (export_chunks_paths _ _ _ _ _ _ _ _ E1) in Hin. simpl in Hin.
  assert (q ≠ p) as Hne.
  { intros ->. apply list_elem_of_fmap in Hin as (x & Hx & _).
    by apply (chunk_path_fresh p base x.1 Hbase). }
  rewrite !lookup_delete_ne by done. apply Hq. by right.
Qed.

Lemma transcribe_all_ext whisper paths (files files0 : Audio.fsys) :
  (∀ q, q ∈ paths → files !! q = files0 !! q) →
  Transcriber.transcribe_all whisper paths files
  = Transcriber.transcribe_all whisper paths files0.
Proof.
  induction paths as [|p paths IH]; intros Hsame; simpl; [done|].
  rewrite <- (Hsame p) by (apply elem_of_cons; by left).
  rewrite IH; [done|]. intros q Hq. apply Hsame, elem_of_cons. by right.
Qed.

(** An episode that gets through publication from one store gets
    through publication, with the same URL, from any other. *)
Lemma publication_returned_indep (w : World) (ep : Episode) (config : Config.Config)
    (s s0 : Store) (url : str) :
  publication_returned w ep config s url → publication_returned w ep config s0 url.
Proof.
  intros (raw & fs1 & paths & fs2 & transcript & insights & calls
          & Hd & Hs & Ht & He & Hp).
  unfold publication_returned, Audio.download_audio in *.
  destruct (download_attempts_indep (audio_services w) (audio_url ep)
              (Audio.download_dest (audio_url ep) (Config.temp_dir config) (number ep))
              (seq 1 Audio._DOWNLOAD_RETRIES) (fs s) (fs s0)) as [Hr Hfile].
  rewrite Hd in Hr, Hfile. cbn [fst snd is_ok] in Hr, Hfile.
  specialize (Hfile eq_refl).
  destruct (download_attempts_written _ _ _ _ _ _ _ Hd) as [-> _].
  destruct (Audio.download_attempts _ _ _ _ (fs s0)) as [r0 fs10] eqn:Hd0.
  rewrite ?Hd0 in Hr, Hfile. cbn [fst snd] in Hr, Hfile. subst r0.
  destruct (split_indep (audio_services w) _ fs1 fs10 Hfile) as [Hr Hq].
  rewrite Hs in Hr, Hq. cbn [fst snd] in Hr, Hq. specialize (Hq paths eq_refl).
  destruct (Audio.split_audio_if_needed _ _ fs10) as [r0 fs20] eqn:Hs0.
  rewrite ?Hs0 in Hr, Hq. cbn [fst snd] in Hr, Hq. subst r0.
  exists (Audio.download_dest (audio_url ep) (Config.temp_dir config) (number ep)),
    fs10, paths, fs20, transcript, insights, calls.
  repeat (split; [done|]). split; [|done].
  unfold Transcriber.transcribe in *.
  by rewrite <- (transcribe_all_ext _ _ fs2 fs20 Hq).
Qed.

(** ** The ledger after the loop *)

Lemma process_episode_marks (w : World) (config : Config.Config) (s : Store)
    (ep : Episode) (n : Z) :
  State.is_processed (state (_process_episode w config s ep)) n = true
  ↔ State.is_processed (state s) n = true
    ∨ (number ep = n ∧ ∃ url, publication_returned w ep config s url).
Proof.
  destruct (process_episode_ledger_of_try w ep config s) as (-> & _ & _).
  pose proof (try_block_ledger w ep config s) as Hledger.
  pose proof (λ url, try_block_stages w ep config s url) as Hstages.
  destruct (try_block w ep config s) as [[paths r] s1]. simpl in *.
  destruct r as [url|e].
  - unfold State.mark_processed in Hledger. injection Hledger as -> _.
    unfold State.is_processed. simpl. rewrite !bool_decide_eq_true.
    rewrite lookup_insert_is_Some. split.
    + intros [Heq|[_ H]]; [|by left]. right.
      split; [by apply str_of_int_inj|]. exists url. by apply Hstages.
    + intros [H|[<- _]]; [|by left].
      destruct (decide (str_of_int (number ep) = str_of_int n)); [by left | by right].
  - destruct Hledger as [-> _]. split; [by left|].
    intros [H|[_ [url Hurl]]]; [done|]. by apply Hstages in Hurl.
Qed.

Lemma loop_marks (w : World) (config : Config.Config) (targets : list Episode)
    (s : Store) (n : Z) :
  State.is_processed (state (foldl (_process_episode w config) s targets)) n = true
  ↔ State.is_processed (state s) n = true
    ∨ ∃ ep url, ep ∈ targets ∧ number ep = n ∧ succeeds_alone w config ep url.
Proof.
  unfold succeeds_alone.
  revert s. induction targets as [|ep targets IH]; intros s; simpl.
  - split; [by left|]. intros [H|(ep & url & H & _)]; [done|].
    by apply elem_of_nil in H.
  - rewrite IH, process_episode_marks. split.
    + intros [[H|[Hn [url Hurl]]]|(ep' & url & Hin & Hn & Hurl)]; [by left| |].
      * right. exists ep, url. split; [apply elem_of_cons; by left|].
        split; [done|]. by apply (publication_returned_indep w ep config s).
      * right. exists ep', url. split; [apply elem_of_cons; by right | done].
    + intros [H|(ep' & url & Hin & Hn & Hurl)]; [by left; left|].
      apply elem_of_cons in Hin as [->|Hin].
      * left. right. split; [done|]. exists url.
        by apply (publication_returned_indep w ep config clean_store).
      * right. by exists ep', url.
Qed.

(** X26.  After a run the ledger marks the episodes it marked before
    and, of the episodes the run processed, those whose pipeline gets
    through publication when run on its own, and no other.  The failure
    of one episode has no effect on the episodes after it, nor has what
    earlier episodes left behind. *)
Theorem run_ledger_exact (w : World) (a : Args) (config : Config.Config)
    (files : Audio.fsys) (d : State.disk) (n : Z) :
  State.is_processed
    (State.init State.STATE_FILE (final_ledger (run w a config files d))) n = true
  ↔ State.is_processed (State.init State.STATE_FILE d) n = true
    ∨ ∃ ep url, ep ∈ processed (run w a config files d) ∧ number ep = n
                ∧ succeeds_alone w config ep url.
Proof.
  assert (∀ code targets,
            State.is_processed
              (State.init State.STATE_FILE (final_ledger (stopped code targets files d)))
              n = true
            ↔ State.is_processed (State.init State.STATE_FILE d) n = true
              ∨ ∃ ep url, ep ∈ processed (stopped code targets files d)
                          ∧ number ep = n ∧ succeeds_alone w config ep url)
    as Hstopped.
  { intros code targets. simpl. split; [by left|].
    intros [H|(ep & url & H & _)]; [done | by apply elem_of_nil in H]. }
  unfold run.
  destruct (Feed.parse_feed _ _) as [|e0 es]; [apply Hstopped|].
  destruct (select_targets _ _ _) as [targets|]; [|apply Hstopped].
  unfold process_targets.
  destruct targets as [|t ts]; [apply Hstopped|].
  destruct (dry_run a); [apply Hstopped|]. cbn [final_ledger processed].
  destruct (run_store_sync w config (t :: ts)
              {| fs := files; ledger_files := d;
                 state := State.init State.STATE_FILE d; notion_calls := [] |}
              eq_refl) as [<- _].
  apply loop_marks.
Qed.

(** X27.  A dry run lists the episodes the run without the flag would
    process and ends with the same exit code, and it changes nothing: no
    file, no ledger entry, no call to the publication service, no
    episode processed. *)
Theorem dry_run_changes_nothing (w : World) (a : Args) (config : Config.Config)
    (files : Audio.fsys) (d : State.disk) :
  let dry := run w (with_dry_run a true) config files d in
  let real := run w (with_dry_run a false) config files d in
  selected dry = selected real ∧ exit_code dry = exit_code real ∧
  final_fs dry = files ∧ final_ledger dry = d ∧ calls dry = [] ∧ processed dry = [].
Proof.
  cbv zeta. unfold run.
  change (select_targets (with_dry_run a true)) with (select_targets (with_dry_run a false)).
  destruct (Feed.parse_feed _ _) as [|e0 es]; [done|].
  destruct (select_targets _ _ _) as [[|t ts]|]; done.
Qed.

Lemma slice_drop_last {A} (l : list A) (n : Z) :
  n < 0 → slice l None (Some n) = take (length l - Z.to_nat (- n)) l.
Proof.
  intros Hn. unfold slice, clip; simpl.
  destruct (Z.ltb_spec n 0) as [_|]; [|lia].
  change (Z.to_nat 0) with 0%nat. rewrite drop_0. f_equal. lia.
Qed.

(** X28.  A negative limit is not refused: it is a slice bound that
    counts from the end, so that limit -k selects every eligible episode
    but the last k. *)
Theorem negative_limit_drops_last (a : Args) (st : State.StateManager)
    (episodes : list Episode) (n : Z) :
  episode a = None → limit a = Some n → n < 0 →
  select_targets a st episodes
  = Some (take (length (List.filter (eligible a st) episodes) - Z.to_nat (- n))
            (List.filter (eligible a st) episodes)).
Proof.
  intros Hmode Hlimit Hn. unfold select_targets. rewrite Hmode, Hlimit. f_equal.
  assert (match from_episode a with
          | Some f =>
              List.filter (λ ep, f <=? number ep)
                (List.filter (λ ep, negb (State.is_processed st (number ep))) episodes)
          | None =>
              List.filter (λ ep, negb (State.is_processed st (number ep))) episodes
          end = List.filter (eligible a st) episodes) as ->.
  { unfold eligible. destruct (from_episode a) as [f|].
    - apply filter_filter_andb.
    - apply List.filter_ext. intros ep. by rewrite andb_true_r. }
  by apply slice_drop_last.
Qed.

Lemma negative_limit_drops_last_witness :
  select_targets (Demo.args None None (Some (-1))) Demo.ledger_124 Demo.seven
  = Some [Demo.numbered 3; Demo.numbered 5; Demo.numbered 6].
Proof.
  rewrite (negative_limit_drops_last _ _ _ (-1)); [|reflexivity|reflexivity|lia].
  vm_compute. reflexivity.
Defined.

End BatchFacts.
